(** * Conditional tokens on Solana: the partition helpers, resolution,
      payout and redemption, and the split / merge ledger

    The TypeScript helpers of [sdk/client.ts] ([PartitionHelper]) and the
    Rust excerpts of the implementation guide ([validate_partition],
    [report_payout], [redeem_positions]) are embedded as they are written.
    The on-chain split and merge instructions are not part of the sources
    at hand; they are modelled from the specification, and marked so. *)

From Stdlib Require Import ZArith List Lia Bool.
From stdpp Require Import base decidable list sorting gmap.
From Equations Require Import Equations.
Import ListNotations.

Local Open Scope Z_scope.

(** ** JavaScript numbers, restricted to integers

    A [number] holding an integer is a [Z].  The bitwise operators first
    convert their operands to 32 bits ([ToInt32], [ToUint32]) and return a
    signed 32-bit value; comparison, subtraction and [===] work on the
    numbers themselves. *)
Module JS.

Definition ToUint32 (z : Z) : Z := z mod 2 ^ 32.

Definition ToInt32 (z : Z) : Z :=
  let m := z mod 2 ^ 32 in
  if 2 ^ 31 <=? m then m - 2 ^ 32 else m.

(** [a << b]: the shift count is [ToUint32 b & 31]. *)
Definition shl (a b : Z) : Z :=
  ToInt32 (Z.shiftl (ToInt32 a) (Z.land (ToUint32 b) 31)).

(** [a >> b], sign propagating. *)
Definition sar (a b : Z) : Z :=
  Z.shiftr (ToInt32 a) (Z.land (ToUint32 b) 31).

(** [a & b] and [a | b]. *)
Definition band (a b : Z) : Z := Z.land (ToInt32 a) (ToInt32 b).
Definition bor (a b : Z) : Z := Z.lor (ToInt32 a) (ToInt32 b).

End JS.

(** ** [PartitionHelper] of [sdk/client.ts] *)
Module PartitionHelper.

(** [binaryPartition()] returns [[0b01, 0b10]]. *)
Definition binaryPartition : list Z := [1; 2].

(** [fullPartition(outcomeCount)]: pushes [1 << i] for
    [i = 0 .. outcomeCount - 1]. *)
Definition fullPartition (outcomeCount : Z) : list Z :=
  map (fun i : nat => JS.shl 1 (Z.of_nat i)) (seq 0 (Z.to_nat outcomeCount)).

(** The [for (const indexSet of partition)] loop of [validatePartition]
    together with the final [return union === fullIndexSet]. *)
Fixpoint validatePartition_loop
    (partition : list Z) (fullIndexSet union : Z) : bool :=
  match partition with
  | [] => union =? fullIndexSet
  | indexSet :: rest =>
      if negb (JS.band union indexSet =? 0) then false
      else if indexSet >? fullIndexSet then false
      else validatePartition_loop rest fullIndexSet (JS.bor union indexSet)
  end.

(** [const fullIndexSet = (1 << outcomeCount) - 1]. *)
Definition fullIndexSet (outcomeCount : Z) : Z := JS.shl 1 outcomeCount - 1.

Definition validatePartition (partition : list Z) (outcomeCount : Z) : bool :=
  if (length partition =? 0)%nat || (length partition =? 1)%nat then false
  else validatePartition_loop partition (fullIndexSet outcomeCount) 0.

(** [outcomeToIndexSet(outcomeIndex)] is [1 << outcomeIndex]. *)
Definition outcomeToIndexSet (outcomeIndex : Z) : Z := JS.shl 1 outcomeIndex.

(** The [while (remaining > 0)] loop of [indexSetToOutcomes].  The first
    test reads the argument as it is; after [remaining >>= 1] the value
    is a signed 32-bit integer, so the loop ends. *)
Equations? indexSetToOutcomes_loop (remaining bit : Z) (outcomes : list Z)
    : list Z by wf (Z.to_nat remaining) lt :=
  indexSetToOutcomes_loop remaining bit outcomes with Z_lt_dec 0 remaining => {
    | left _ :=
        indexSetToOutcomes_loop (JS.sar remaining 1) (bit + 1)
          (if negb (JS.band remaining 1 =? 0) then outcomes ++ [bit]
           else outcomes);
    | right _ := outcomes }.
Proof.
  unfold JS.sar, JS.ToInt32, JS.ToUint32.
  change (Z.land (1 mod 2 ^ 32) 31) with 1.
  rewrite Z.shiftr_div_pow2 by lia. change (2 ^ 1) with 2.
  assert (Hm : 0 <= remaining mod 2 ^ 32 <= remaining).
  { split; [apply Z.mod_pos_bound; lia | apply Z.mod_le; lia]. }
  destruct (2 ^ 31 <=? remaining mod 2 ^ 32) eqn:E.
  - assert ((remaining mod 2 ^ 32 - 2 ^ 32) / 2 < 0).
    { apply Z.div_lt_upper_bound; [lia|].
      pose proof (Z.mod_pos_bound remaining (2 ^ 32)). lia. }
    lia.
  - assert (remaining mod 2 ^ 32 / 2 <= remaining / 2)
      by (apply Z.div_le_mono; lia).
    assert (remaining / 2 < remaining) by (apply Z.div_lt; lia).
    assert (0 <= remaining mod 2 ^ 32 / 2) by (apply Z.div_pos; lia).
    lia.
Qed.

Definition indexSetToOutcomes (indexSet : Z) : list Z :=
  indexSetToOutcomes_loop indexSet 0 [].

(** [outcomesToIndexSet(outcomeIndices)]:
    [reduce((acc, idx) => acc | (1 << idx), 0)]. *)
Definition outcomesToIndexSet (outcomeIndices : list Z) : Z :=
  fold_left (fun acc idx => JS.bor acc (JS.shl 1 idx)) outcomeIndices 0.

End PartitionHelper.

Import PartitionHelper.

(** The signed 32-bit range. *)
Definition int32 (z : Z) : Prop := - 2 ^ 31 <= z < 2 ^ 31.

(** The positions of the set bits of a positive number, least first,
    counted from [k]. *)
Fixpoint pos_bits (p : positive) (k : Z) : list Z :=
  match p with
  | xH => [k]
  | xO q => pos_bits q (k + 1)
  | xI q => k :: pos_bits q (k + 1)
  end.

Definition set_bits (s : Z) : list Z :=
  match s with
  | Zpos p => pos_bits p 0
  | _ => []
  end.

(** ** The program's accounts, errors and results *)

(** Public keys (accounts, mints) are opaque identifiers. *)
Definition Pubkey : Type := Z.

(** The [Condition] account, as the README declares it. *)
Record Condition : Type := mkCondition {
  oracle : Pubkey;
  question_id : list Z;
  outcome_slot_count : Z;
  is_resolved : bool;
  payout_numerators : list Z;
  condition_id : list Z
}.

(** Modelled from the spec: the [ErrorCode] enum, whose declaration is not
    among the sources. The excerpts and tests name [UnauthorizedOracle],
    [ConditionNotResolved] and [InvalidPartition]; the other constructors
    are the error names of the specification. [InvalidAmount] stands for
    the rejection of a split that breaks the precondition [amount > 0],
    for which the specification names no error. *)
Inductive ErrorCode : Type :=
| InvalidOutcomeCount
| ConditionAlreadyExists
| InvalidPartition
| UnauthorizedOracle
| AlreadyResolved
| InvalidPayoutVector
| ConditionNotResolved
| InsufficientFunds
| InsufficientPosition
| InsufficientVault
| ArithmeticOverflow
| DivisionByZero
| InvalidAmount.

(** The result of an instruction: [Ok], an error of the program, or a
    Rust panic ([unwrap] on [None], arithmetic overflow under overflow
    checks). *)
Inductive Result (A : Type) : Type :=
| Ok (a : A)
| Err (e : ErrorCode)
| Panicked.
Arguments Ok {A} a.
Arguments Err {A} e.
Arguments Panicked {A}.

#[global] Instance Result_ret : MRet Result := fun A a => Ok a.
#[global] Instance Result_bind : MBind Result := fun A B f m =>
  match m with
  | Ok a => f a
  | Err e => Err e
  | Panicked => Panicked
  end.

Definition is_ok {A} (r : Result A) : bool :=
  match r with Ok _ => true | _ => false end.

(** ** Unsigned machine integers *)

Definition u64_MAX : Z := 2 ^ 64 - 1.
Definition u128_MAX : Z := 2 ^ 128 - 1.

Definition u64 (z : Z) : Prop := 0 <= z <= u64_MAX.

Definition checked_add (a b : Z) : option Z :=
  if a + b <=? u64_MAX then Some (a + b) else None.

Definition checked_sub (a b : Z) : option Z :=
  if b <=? a then Some (a - b) else None.

(** [u128::checked_mul] and [u128::checked_div]. *)
Definition checked_mul_u128 (a b : Z) : option Z :=
  if a * b <=? u128_MAX then Some (a * b) else None.

Definition checked_div_u128 (a b : Z) : option Z :=
  if b =? 0 then None else Some (a / b).

(** [x as u64] on a [u128]. *)
Definition as_u64 (x : Z) : Z := x mod 2 ^ 64.

(** [Option::unwrap]. *)
Definition unwrap {A} (o : option A) : Result A :=
  match o with
  | Some a => Ok a
  | None => Panicked
  end.

(** ** [validate_partition] of the implementation guide

    Index sets are [u8] values widened to [u64]; the mask is
    [(1u64 << outcome_slot_count) - 1]. A shift by 64 or more overflows,
    which panics under overflow checks. *)
Fixpoint validate_partition_loop
    (partition : list Z) (full_index_set union : Z) : bool :=
  match partition with
  | [] => union =? full_index_set
  | index_set :: rest =>
      if negb (Z.land union index_set =? 0) then false
      else if index_set >? full_index_set then false
      else validate_partition_loop rest full_index_set (Z.lor union index_set)
  end.

Definition validate_partition
    (partition : list Z) (outcome_slot_count : Z) : Result bool :=
  if (length partition =? 0)%nat || (length partition =? 1)%nat then Ok false
  else if 64 <=? outcome_slot_count then Panicked
  else Ok (validate_partition_loop partition
             (Z.shiftl 1 outcome_slot_count - 1) 0).

(** ** [report_payout] of the implementation guide

    [signer] is [ctx.accounts.oracle.key()]. The instruction returns the
    condition account as it is written back. *)
Definition report_payout
    (signer : Pubkey) (condition : Condition) (payout_numerators' : list Z)
    : Result Condition :=
  if negb (signer =? oracle condition) then Err UnauthorizedOracle
  else Ok {| oracle := oracle condition;
             question_id := question_id condition;
             outcome_slot_count := outcome_slot_count condition;
             is_resolved := true;
             payout_numerators := payout_numerators';
             condition_id := condition_id condition |}.

(** ** Payout arithmetic of [redeem_positions] *)

(** [payout_numerators.iter().sum()] as a [u64]: the running sum panics
    when it leaves the 64-bit range. *)
Fixpoint sum_u64_from (acc : Z) (l : list Z) : Result Z :=
  match l with
  | [] => Ok acc
  | x :: rest =>
      acc' ← unwrap (checked_add acc x); sum_u64_from acc' rest
  end.

Definition sum_u64 (l : list Z) : Result Z := sum_u64_from 0 l.

(** Modelled from the spec: the scan behind [calculate_payout_numerator],
    a helper that the excerpt calls and the sources do not define. The
    slots are scanned in order, the first one standing for bit [i]; a
    slot adds its numerator when its bit is set in [index_set]. A set bit
    beyond the last slot adds nothing. *)
Fixpoint payout_numerator_from
    (payout_numerators : list Z) (index_set i : Z) : Z :=
  match payout_numerators with
  | [] => 0
  | x :: rest =>
      (if Z.testbit index_set i then x else 0)
      + payout_numerator_from rest index_set (i + 1)
  end.

(** Modelled from the spec: [calculate_payout_numerator], missing from the
    sources: the sum of [payout_numerators[i]] for each bit [i] set in
    [index_set]. *)
Definition calculate_payout_numerator
    (payout_numerators : list Z) (index_set : Z) : Z :=
  payout_numerator_from payout_numerators index_set 0.

(** [(amount as u128).checked_mul(payout_numerator as u128).unwrap()
      .checked_div(payout_denominator as u128).unwrap() as u64]. *)
Definition payout (amount payout_numerator payout_denominator : Z) : Result Z :=
  product ← unwrap (checked_mul_u128 amount payout_numerator);
  quotient ← unwrap (checked_div_u128 product payout_denominator);
  mret (as_u64 quotient).

(** The payout of one index set as [redeem_positions] computes it: the
    denominator is summed first, then the numerator is taken and the
    quotient formed. *)
Definition payoutFor
    (payout_numerators : list Z) (index_set amount : Z) : Result Z :=
  payout_denominator ← sum_u64 payout_numerators;
  payout amount (calculate_payout_numerator payout_numerators index_set)
    payout_denominator.

(** The numerator as the specification words it: the sum of
    [payout_numerators[i]] over the set bits [i] of [index_set]. *)
Definition numerator_over_bits
    (payout_numerators : list Z) (index_set : Z) : Z :=
  foldr (fun i acc => nth (Z.to_nat i) payout_numerators 0 + acc) 0
        (set_bits index_set).

Definition list_sum_Z (l : list Z) : Z := foldr Z.add 0 l.

(** ** The ledgers of one condition *)

(** Modelled from the spec: the account store, which the sources only
    reach through the token program. For one condition it holds the
    vaults (one balance per collateral asset), the outcome positions (one
    supply per outcome index) and the external asset ledger with the
    users' collateral and claim units. *)
Record Ledger : Type := mkLedger {
  vaults : gmap Pubkey Z;
  supplies : gmap Z Z;
  collateral : gmap (Pubkey * Pubkey) Z;
  claims : gmap (Pubkey * Z) Z
}.

Definition vault_balance (L : Ledger) (asset : Pubkey) : Z :=
  default 0 (vaults L !! asset).
Definition supply (L : Ledger) (outcome_index : Z) : Z :=
  default 0 (supplies L !! outcome_index).
Definition holding (L : Ledger) (who asset : Pubkey) : Z :=
  default 0 (collateral L !! (who, asset)).
Definition claim (L : Ledger) (who : Pubkey) (outcome_index : Z) : Z :=
  default 0 (claims L !! (who, outcome_index)).

(** Modelled from the spec: [debit] of the asset-transfer capability,
    missing from the sources; it fails with [InsufficientFunds] rather
    than partially applying. *)
Definition debit (asset from : Pubkey) (amount : Z) (L : Ledger) : Result Ledger :=
  match checked_sub (holding L from asset) amount with
  | None => Err InsufficientFunds
  | Some b =>
      Ok (mkLedger (vaults L) (supplies L)
            (<[(from, asset) := b]> (collateral L)) (claims L))
  end.

(** Modelled from the spec: [credit] of the asset-transfer capability,
    missing from the sources; the balance is a checked 64-bit sum. *)
Definition credit (asset to : Pubkey) (amount : Z) (L : Ledger) : Result Ledger :=
  match checked_add (holding L to asset) amount with
  | None => Err ArithmeticOverflow
  | Some b =>
      Ok (mkLedger (vaults L) (supplies L)
            (<[(to, asset) := b]> (collateral L)) (claims L))
  end.

(** Modelled from the spec: [mintClaim] of the asset-transfer capability,
    missing from the sources: [amount] claim units of one outcome slot go
    to a holder and the slot's supply grows by as much. *)
Definition mintClaim (outcome_index : Z) (to : Pubkey) (amount : Z) (L : Ledger)
    : Result Ledger :=
  match checked_add (claim L to outcome_index) amount,
        checked_add (supply L outcome_index) amount with
  | Some c, Some s =>
      Ok (mkLedger (vaults L) (<[outcome_index := s]> (supplies L))
            (collateral L) (<[(to, outcome_index) := c]> (claims L)))
  | _, _ => Err ArithmeticOverflow
  end.

(** Modelled from the spec: [burnClaim] of the asset-transfer capability,
    missing from the sources: it fails with [InsufficientPosition] when
    the holder's claim units or the slot's supply would go below zero. *)
Definition burnClaim (outcome_index : Z) (from : Pubkey) (amount : Z) (L : Ledger)
    : Result Ledger :=
  match checked_sub (claim L from outcome_index) amount,
        checked_sub (supply L outcome_index) amount with
  | Some c, Some s =>
      Ok (mkLedger (vaults L) (<[outcome_index := s]> (supplies L))
            (collateral L) (<[(from, outcome_index) := c]> (claims L)))
  | _, _ => Err InsufficientPosition
  end.

(** Modelled from the spec: the vault side of a transfer into custody,
    missing from the sources; [Vault.balance] grows by [amount]. *)
Definition vault_credit (asset : Pubkey) (amount : Z) (L : Ledger) : Result Ledger :=
  match checked_add (vault_balance L asset) amount with
  | None => Err ArithmeticOverflow
  | Some b =>
      Ok (mkLedger (<[asset := b]> (vaults L)) (supplies L)
            (collateral L) (claims L))
  end.

(** Modelled from the spec: the vault side of a transfer out of custody,
    missing from the sources; it fails with [InsufficientVault] when the
    vault cannot cover [amount]. *)
Definition vault_debit (asset : Pubkey) (amount : Z) (L : Ledger) : Result Ledger :=
  match checked_sub (vault_balance L asset) amount with
  | None => Err InsufficientVault
  | Some b =>
      Ok (mkLedger (<[asset := b]> (vaults L)) (supplies L)
            (collateral L) (claims L))
  end.

(** Modelled from the spec: the mints of a split, missing from the
    sources: [amount] claim units in each of the listed outcome slots, in
    order; the first failure fails the whole. *)
Fixpoint mint_all (outcomes : list Z) (to : Pubkey) (amount : Z) (L : Ledger)
    : Result Ledger :=
  match outcomes with
  | [] => Ok L
  | i :: rest => L' ← mintClaim i to amount L; mint_all rest to amount L'
  end.

(** Modelled from the spec: the burns of a merge or of a redemption,
    missing from the sources: [amount] claim units in each of the listed
    outcome slots, in order; the first failure fails the whole. *)
Fixpoint burn_all (outcomes : list Z) (from : Pubkey) (amount : Z) (L : Ledger)
    : Result Ledger :=
  match outcomes with
  | [] => Ok L
  | i :: rest => L' ← burnClaim i from amount L; burn_all rest from amount L'
  end.

(** The outcome slots covered by the index sets of a partition, set by
    set. *)
Definition covered (partition : list Z) : list Z :=
  flat_map set_bits partition.

(** Every balance of the ledgers is a 64-bit unsigned value. *)
Definition ledger_wf (L : Ledger) : Prop :=
  map_Forall (fun _ v => u64 v) (vaults L)
  /\ map_Forall (fun _ v => u64 v) (supplies L)
  /\ map_Forall (fun _ v => u64 v) (collateral L)
  /\ map_Forall (fun _ v => u64 v) (claims L).

(** ** Partition validation as the specification states it *)

(** Modelled from the spec: the loop of the partition validator that the
    split and merge instructions, missing from the sources, call. A
    running [union]; for each index set [s] in order: reject if [s == 0],
    reject if [(union & s) != 0], reject if [s > full]; otherwise
    [union |= s]. The integers are unbounded. *)
Fixpoint validate_loop (partition : list Z) (full union : Z) : option Z :=
  match partition with
  | [] => Some union
  | s :: rest =>
      if s =? 0 then None
      else if negb (Z.land union s =? 0) then None
      else if s >? full then None
      else validate_loop rest full (Z.lor union s)
  end.

(** Modelled from the spec: the partition validator of the missing
    instructions: [full = (1 << outcome_slot_count) - 1], the loop from
    [union = 0], and acceptance iff [union == full] and the partition has
    at least two entries. *)
Definition validate (partition : list Z) (outcome_slot_count : Z) : bool :=
  let full := Z.shiftl 1 outcome_slot_count - 1 in
  match validate_loop partition full 0 with
  | Some union => (union =? full) && (2 <=? length partition)%nat
  | None => false
  end.

(** ** Split and merge *)

(** Modelled from the spec: the on-chain [split_position] instruction,
    which is not among the sources (the client only submits it, the tests
    only call it). [amount > 0]; the partition validates, else
    [InvalidPartition]; [amount] of the collateral asset moves from the
    payer into the vault; every outcome slot covered by an index set of
    the partition has its supply raised by [amount], the claim units
    going to the payer. A failure leaves the ledgers as they were. *)
Definition split
    (condition : Condition) (collateral_asset : Pubkey) (amount : Z)
    (partition : list Z) (payer : Pubkey) (L : Ledger) : Result Ledger :=
  if negb (0 <? amount) then Err InvalidAmount
  else if negb (validate partition (outcome_slot_count condition))
  then Err InvalidPartition
  else
    L1 ← debit collateral_asset payer amount L;
    L2 ← vault_credit collateral_asset amount L1;
    mint_all (covered partition) payer amount L2.

(** Modelled from the spec: the on-chain [merge_positions] instruction,
    which is not among the sources. The partition validates; [amount]
    claim units are burnt in every covered outcome slot
    ([InsufficientPosition] otherwise); the vault gives up [amount]
    ([InsufficientVault] otherwise), which is credited to the caller. *)
Definition merge
    (condition : Condition) (collateral_asset : Pubkey) (amount : Z)
    (partition : list Z) (payer : Pubkey) (L : Ledger) : Result Ledger :=
  if negb (validate partition (outcome_slot_count condition))
  then Err InvalidPartition
  else
    L1 ← burn_all (covered partition) payer amount L;
    L2 ← vault_debit collateral_asset amount L1;
    credit collateral_asset payer amount L2.

(** Operations on one condition and their effect on the ledgers: an
    operation that fails changes nothing. *)
Inductive Op : Type :=
| OpSplit (collateral_asset : Pubkey) (amount : Z) (partition : list Z)
          (payer : Pubkey)
| OpMerge (collateral_asset : Pubkey) (amount : Z) (partition : list Z)
          (payer : Pubkey).

Definition apply_op (condition : Condition) (L : Ledger) (op : Op) : Ledger :=
  match op with
  | OpSplit asset amount partition payer =>
      match split condition asset amount partition payer L with
      | Ok L' => L'
      | _ => L
      end
  | OpMerge asset amount partition payer =>
      match merge condition asset amount partition payer L with
      | Ok L' => L'
      | _ => L
      end
  end.

Definition run_ops (condition : Condition) (ops : list Op) (L : Ledger) : Ledger :=
  fold_left (apply_op condition) ops L.




(** The sum of the supplies of the outcome slots [0 .. n-1]. *)
Definition total_supply (L : Ledger) (n : Z) : Z :=
  list_sum_Z (map (supply L) (seqZ 0 n)).

(** [getVaultBalance] of [sdk/client.ts], read over the ledgers.
    [getAccount] throws when the vault account does not exist and the
    method does not catch it: [None] stands for the rejected promise. *)
Definition getVaultBalance (L : Ledger) (collateralMint : Pubkey) : option Z :=
  vaults L !! collateralMint.

(** [verifyCTFInvariant] of [sdk/client.ts], read over the ledgers: the
    vault balance of the collateral mint, whose error is passed on; the
    sum of the supplies of the listed outcome mints, a mint without an
    account adding nothing; and the test
    [totalOutcomeSupply === vaultBalance * outcomeMints.length]. The
    amounts are [BigInt]s. *)
Record InvariantReport : Type := mkInvariantReport {
  isValid : bool;
  vaultBalance : Z;
  totalOutcomeSupply : Z
}.

Definition verifyCTFInvariant
    (L : Ledger) (collateralMint : Pubkey) (outcomeMints : list Z)
    : option InvariantReport :=
  match getVaultBalance L collateralMint with
  | None => None
  | Some vaultBalance =>
      let totalOutcomeSupply :=
        fold_left
          (fun acc outcomeMint =>
             match supplies L !! outcomeMint with
             | Some supply => acc + supply
             | None => acc
             end)
          outcomeMints 0 in
      let expectedTotal := vaultBalance * Z.of_nat (length outcomeMints) in
      Some (mkInvariantReport (totalOutcomeSupply =? expectedTotal)
              vaultBalance totalOutcomeSupply)
  end.

(** ** [redeem_positions] of the implementation guide

    The instruction is run call by call: each token-program call changes
    the ledgers at once and is recorded, and a failure stops the run with
    the ledgers as they are at that point. *)
Inductive Event : Type :=
| EvBurn (index_set amount : Z)
| EvTransfer (amount : Z).

Record Run (A : Type) : Type := mkRun {
  run_ledger : Ledger;
  run_trace : list Event;
  run_result : Result A
}.
Arguments mkRun {A} _ _ _.
Arguments run_ledger {A} _.
Arguments run_trace {A} _.
Arguments run_result {A} _.

(** Modelled from the spec: the arguments of [token::burn] are elided in
    the excerpt; the call burns [amount] claim units of the caller in
    every outcome slot covered by the index set, or fails as a whole. *)
Definition token_burn (user : Pubkey) (index_set amount : Z) (L : Ledger)
    : Result Ledger :=
  burn_all (set_bits index_set) user amount L.

(** Modelled from the spec: the arguments of [token::transfer] are elided
    in the excerpt; the call moves the payout from the vault to the
    caller's collateral account. *)
Definition token_transfer
    (collateral_mint user : Pubkey) (amount : Z) (L : Ledger) : Result Ledger :=
  L1 ← vault_debit collateral_mint amount L;
  credit collateral_mint user amount L1.

(** The [for] loop of [redeem_positions]. *)
Fixpoint redeem_loop
    (condition : Condition) (user : Pubkey)
    (payout_denominator amount : Z) (index_sets : list Z)
    (total_payout : Z) (L : Ledger) (trace : list Event) : Run Z :=
  match index_sets with
  | [] => mkRun L trace (Ok total_payout)
  | index_set :: rest =>
      let payout_numerator :=
        calculate_payout_numerator (payout_numerators condition) index_set in
      match payout amount payout_numerator payout_denominator with
      | Ok p =>
          match checked_add total_payout p with
          | Some total_payout' =>
              match token_burn user index_set amount L with
              | Ok L' =>
                  redeem_loop condition user payout_denominator amount rest
                    total_payout' L' (trace ++ [EvBurn index_set amount])
              | Err e => mkRun L trace (Err e)
              | Panicked => mkRun L trace Panicked
              end
          | None => mkRun L trace Panicked
          end
      | Err e => mkRun L trace (Err e)
      | Panicked => mkRun L trace Panicked
      end
  end.

Definition redeem_positions
    (condition : Condition) (user collateral_mint : Pubkey)
    (index_sets : list Z) (amount : Z) (L : Ledger) : Run unit :=
  if negb (is_resolved condition) then mkRun L [] (Err ConditionNotResolved)
  else
    match sum_u64 (payout_numerators condition) with
    | Ok payout_denominator =>
        let r := redeem_loop condition user payout_denominator amount
                   index_sets 0 L [] in
        match run_result r with
        | Ok total_payout =>
            match token_transfer collateral_mint user total_payout
                    (run_ledger r) with
            | Ok L' =>
                mkRun L' (run_trace r ++ [EvTransfer total_payout]) (Ok tt)
            | Err e => mkRun (run_ledger r) (run_trace r) (Err e)
            | Panicked => mkRun (run_ledger r) (run_trace r) Panicked
            end
        | Err e => mkRun (run_ledger r) (run_trace r) (Err e)
        | Panicked => mkRun (run_ledger r) (run_trace r) Panicked
        end
    | Err e => mkRun L [] (Err e)
    | Panicked => mkRun L [] Panicked
    end.

(** The burns of a sequence of index sets, in order. *)
Fixpoint burn_sets
    (user : Pubkey) (amount : Z) (index_sets : list Z) (L : Ledger)
    : Result Ledger :=
  match index_sets with
  | [] => Ok L
  | index_set :: rest =>
      L' ← token_burn user index_set amount L; burn_sets user amount rest L'
  end.

(** ** Repeated resolution *)

(** One [report_payout] instruction sent to the condition account: a
    failed instruction leaves the account as it was. A call is the signer
    and the vector it reports. *)
Definition report_payout_step
    (c : Condition) (call : Pubkey * list Z) : Condition :=
  match report_payout (fst call) c (snd call) with
  | Ok c' => c'
  | _ => c
  end.

Definition report_payout_steps
    (calls : list (Pubkey * list Z)) (c : Condition) : Condition :=
  fold_left report_payout_step calls c.

(** ** The account lists the client builds ([sdk/client.ts]) *)

Record AccountMeta : Type := mkAccountMeta {
  pubkey : Pubkey;
  isSigner : bool;
  isWritable : bool
}.

(** [params.outcomeMints.map(mint =>
      getAssociatedTokenAddressSync(mint, params.user))]; the address
    derivation of the token library is a parameter. *)
Definition userOutcomeAccounts
    (getAssociatedTokenAddressSync : Pubkey -> Pubkey -> Pubkey)
    (outcomeMints : list Pubkey) (user : Pubkey) : list Pubkey :=
  map (fun mint => getAssociatedTokenAddressSync mint user) outcomeMints.

(** The loop of [splitPosition], [mergePositions] and [redeemPositions]
    that fills [remainingAccounts]: for [i] from 0 below
    [outcomeMints.length] it pushes [outcomeMints[i]] and then
    [userOutcomeAccounts[i]], both writable and not signers. *)
Definition remainingAccounts
    (getAssociatedTokenAddressSync : Pubkey -> Pubkey -> Pubkey)
    (outcomeMints : list Pubkey) (user : Pubkey) : list AccountMeta :=
  let accounts :=
    userOutcomeAccounts getAssociatedTokenAddressSync outcomeMints user in
  flat_map
    (fun i : nat =>
       [mkAccountMeta (nth i outcomeMints 0) false true;
        mkAccountMeta (nth i accounts 0) false true])
    (seq 0 (length outcomeMints)).

(** The account list the integration tests pass with a split or a merge
    of a two-outcome condition: both mints, then both token accounts of
    the user. *)
Definition testRemainingAccounts
    (yesMint noMint userYesAccount userNoAccount : Pubkey) : list AccountMeta :=
  [mkAccountMeta yesMint false true;
   mkAccountMeta noMint false true;
   mkAccountMeta userYesAccount false true;
   mkAccountMeta userNoAccount false true].

(** The instruction [createAssociatedTokenAccountInstruction(payer,
    associatedToken, owner, mint)]. *)
Record CreateAccount : Type := mkCreateAccount {
  create_payer : Pubkey;
  create_associatedToken : Pubkey;
  create_owner : Pubkey;
  create_mint : Pubkey
}.

(** [ensureOutcomeAccounts(user, outcomeMints, payer?)]. [existing] is the
    set of accounts for which [getAccountInfo] returns a value, [wallet]
    is [this.provider.wallet.publicKey]. *)
Definition ensureOutcomeAccounts
    (getAssociatedTokenAddressSync : Pubkey -> Pubkey -> Pubkey)
    (existing : gset Pubkey) (wallet : Pubkey)
    (user : Pubkey) (outcomeMints : list Pubkey) (payer : option Pubkey)
    : list CreateAccount :=
  let payerKey := default wallet payer in
  fold_left
    (fun instructions mint =>
       let ata := getAssociatedTokenAddressSync mint user in
       if bool_decide (ata ∈ existing) then instructions
       else instructions ++ [mkCreateAccount payerKey ata user mint])
    outcomeMints [].

(** * Theorems *)

(** ** 32-bit conversions *)

Lemma ToInt32_int32 z : int32 (JS.ToInt32 z).
Proof.
  unfold int32, JS.ToInt32. cbv zeta.
  pose proof (Z.mod_pos_bound z (2 ^ 32) ltac:(lia)).
  destruct (2 ^ 31 <=? z mod 2 ^ 32) eqn:E; lia.
Qed.

Lemma ToInt32_id z : int32 z -> JS.ToInt32 z = z.
Proof.
  unfold int32, JS.ToInt32. intros Hz. cbv zeta.
  destruct (Z_lt_dec z 0) as [Hneg|Hpos].
  - assert (Hm : z mod 2 ^ 32 = z + 2 ^ 32).
    { symmetry. apply (Z.mod_unique_pos z (2 ^ 32) (-1)); lia. }
    rewrite Hm. destruct (2 ^ 31 <=? z + 2 ^ 32) eqn:E; lia.
  - rewrite Z.mod_small by lia.
    destruct (2 ^ 31 <=? z) eqn:E; lia.
Qed.

Lemma int32_shiftr z : int32 z <-> Z.shiftr z 31 = 0 \/ Z.shiftr z 31 = -1.
Proof.
  unfold int32. rewrite Z.shiftr_div_pow2 by lia.
  pose proof (Z.div_mod z (2 ^ 31) ltac:(lia)).
  pose proof (Z.mod_pos_bound z (2 ^ 31) ltac:(lia)).
  lia.
Qed.

Lemma int32_lor a b : int32 a -> int32 b -> int32 (Z.lor a b).
Proof.
  rewrite !int32_shiftr, Z.shiftr_lor.
  intros [->| ->] [->| ->]; cbn; auto.
Qed.

Lemma bor_int32 a b : int32 (JS.bor a b).
Proof. apply int32_lor; apply ToInt32_int32. Qed.

Lemma land_31_bound z : 0 <= Z.land z 31 <= 31.
Proof.
  change (Z.land z 31) with (Z.land z (Z.ones 5)).
  rewrite Z.land_ones by lia.
  pose proof (Z.mod_pos_bound z (2 ^ 5) ltac:(lia)). lia.
Qed.

Lemma shl_1_small i : 0 <= i < 31 -> JS.shl 1 i = 2 ^ i.
Proof.
  intros Hi. unfold JS.shl, JS.ToUint32.
  rewrite (Z.mod_small i) by lia.
  change (Z.land i 31) with (Z.land i (Z.ones 5)).
  rewrite Z.land_ones by lia.
  rewrite (Z.mod_small i) by lia.
  change (JS.ToInt32 1) with 1. rewrite Z.shiftl_1_l.
  apply ToInt32_id. unfold int32.
  assert (2 ^ i <= 2 ^ 30) by (apply Z.pow_le_mono_r; lia).
  assert (0 < 2 ^ i) by (apply Z.pow_pos_nonneg; lia).
  lia.
Qed.

(** The mask [(1 << outcomeCount) - 1] is either non-negative or, when the
    shift count is 31, one below the least 32-bit integer. *)
Lemma fullIndexSet_cases n :
  0 <= fullIndexSet n \/ fullIndexSet n = - 2 ^ 31 - 1.
Proof.
  unfold fullIndexSet, JS.shl.
  pose proof (land_31_bound (JS.ToUint32 n)) as Hk.
  set (k := Z.land (JS.ToUint32 n) 31) in *.
  change (JS.ToInt32 1) with 1. rewrite Z.shiftl_1_l.
  destruct (Z.eq_dec k 31) as [->|Hne].
  - right. reflexivity.
  - left. rewrite ToInt32_id.
    + assert (0 < 2 ^ k) by (apply Z.pow_pos_nonneg; lia). lia.
    + unfold int32.
      assert (2 ^ k <= 2 ^ 30) by (apply Z.pow_le_mono_r; lia).
      assert (0 < 2 ^ k) by (apply Z.pow_pos_nonneg; lia). lia.
Qed.

(** ** The validator's loop *)

Lemma validatePartition_loop_neg_mask p u :
  int32 u -> validatePartition_loop p (- 2 ^ 31 - 1) u = false.
Proof.
  revert u. induction p as [|s p IH]; intros u Hu; cbn [validatePartition_loop].
  - unfold int32 in Hu. apply Z.eqb_neq. lia.
  - destruct (negb _); [reflexivity|].
    destruct (s >? _); [reflexivity|].
    apply IH, bor_int32.
Qed.

Lemma validatePartition_loop_zero p full u :
  0 <= full -> int32 u ->
  validatePartition_loop (0 :: p) full u = validatePartition_loop p full u.
Proof.
  intros Hf Hu. cbn [validatePartition_loop].
  unfold JS.band, JS.bor. change (JS.ToInt32 0) with 0.
  rewrite Z.land_0_r, Z.lor_0_r, (ToInt32_id u Hu). cbn [Z.eqb negb].
  destruct (0 >? full) eqn:E; [lia | reflexivity].
Qed.

Lemma validatePartition_loop_skip_zero p1 p2 full u :
  0 <= full -> int32 u ->
  validatePartition_loop (p1 ++ 0 :: p2) full u =
  validatePartition_loop (p1 ++ p2) full u.
Proof.
  intros Hf. revert u.
  induction p1 as [|s p1 IH]; intros u Hu.
  - apply validatePartition_loop_zero; assumption.
  - cbn [app validatePartition_loop].
    destruct (negb _); [reflexivity|].
    destruct (s >? full); [reflexivity|].
    apply IH, bor_int32.
Qed.

Lemma int32_0 : int32 0.
Proof. unfold int32; lia. Qed.

Lemma validatePartition_length p n :
  validatePartition p n =
  (2 <=? length p)%nat && validatePartition_loop p (fullIndexSet n) 0.
Proof.
  unfold validatePartition.
  destruct p as [|a [|b p]]; reflexivity.
Qed.

(** C2, as amended. [validatePartition] has no test for an empty index
    set: an entry equal to 0 passes the overlap and range checks and
    leaves the running union as it is.  A partition that holds a 0 entry
    is accepted exactly when it has at least two entries and the loop
    accepts the partition without that entry. *)
Theorem validatePartition_zero_entry :
  forall (p1 p2 : list Z) (outcomeCount : Z),
    validatePartition (p1 ++ 0 :: p2) outcomeCount =
    (2 <=? length (p1 ++ 0%Z :: p2))%nat &&
    validatePartition_loop (p1 ++ p2) (fullIndexSet outcomeCount) 0.
Proof.
  intros p1 p2 n. rewrite validatePartition_length. f_equal.
  destruct (fullIndexSet_cases n) as [Hf| ->].
  - apply validatePartition_loop_skip_zero; [assumption | apply int32_0].
  - rewrite !validatePartition_loop_neg_mask by apply int32_0. reflexivity.
Qed.

(** C2, counterexample: the partition [[0, 0b01, 0b10]] holds an index set
    equal to 0 and is accepted over 2 slots. *)
Lemma validatePartition_zero_accepted :
  ~ (forall (p : list Z) (outcomeCount : Z),
        In 0 p -> validatePartition p outcomeCount = false).
Proof.
  intros H. specialize (H [0; 1; 2] 2 ltac:(cbn; auto)).
  vm_compute in H. discriminate.
Qed.

(** C3, at the failing inputs. For 31 and 32 outcome slots the shift
    [1 << outcomeCount] leaves the 32-bit range: the mask becomes
    [-2^31 - 1] and [0], the helper's own full partitions are rejected, a
    two-block partition of 32 slots is rejected, and [[0, 0]] is accepted
    over 32 slots. *)
Theorem validatePartition_mask_overflow :
  fullIndexSet 31 = - 2 ^ 31 - 1
  /\ fullIndexSet 32 = 0
  /\ validatePartition (fullPartition 31) 31 = false
  /\ validatePartition (fullPartition 32) 32 = false
  /\ validatePartition [65535; 4294901760] 32 = false
  /\ validatePartition [0; 0] 32 = true.
Proof. repeat split; vm_compute; reflexivity. Qed.

(** ** Index sets and outcome lists *)

Lemma sar_1_small r : 0 <= r < 2 ^ 31 -> JS.sar r 1 = r / 2.
Proof.
  intros Hr. unfold JS.sar.
  change (Z.land (JS.ToUint32 1) 31) with 1.
  rewrite ToInt32_id by (unfold int32; lia).
  rewrite Z.shiftr_div_pow2 by lia. reflexivity.
Qed.

Lemma band_1_small r : 0 <= r < 2 ^ 31 -> JS.band r 1 = r mod 2.
Proof.
  intros Hr. unfold JS.band. change (JS.ToInt32 1) with (Z.ones 1).
  rewrite ToInt32_id by (unfold int32; lia).
  rewrite Z.land_ones by lia. reflexivity.
Qed.

Lemma indexSetToOutcomes_loop_pos r bit acc :
  0 < r ->
  indexSetToOutcomes_loop r bit acc =
  indexSetToOutcomes_loop (JS.sar r 1) (bit + 1)
    (if negb (JS.band r 1 =? 0) then acc ++ [bit] else acc).
Proof.
  intros Hr. rewrite indexSetToOutcomes_loop_equation_1.
  destruct (Z_lt_dec 0 r); [reflexivity | lia].
Qed.

Lemma indexSetToOutcomes_loop_nonpos r bit acc :
  r <= 0 -> indexSetToOutcomes_loop r bit acc = acc.
Proof.
  intros Hr. rewrite indexSetToOutcomes_loop_equation_1.
  destruct (Z_lt_dec 0 r); [lia | reflexivity].
Qed.

Lemma indexSetToOutcomes_loop_bits p bit acc :
  Zpos p < 2 ^ 31 ->
  indexSetToOutcomes_loop (Zpos p) bit acc = acc ++ pos_bits p bit.
Proof.
  revert bit acc. induction p as [q IH|q IH|]; intros bit acc Hp.
  - rewrite indexSetToOutcomes_loop_pos by lia.
    rewrite sar_1_small, band_1_small by lia.
    assert (Hd : Z.pos q~1 / 2 = Z.pos q).
    { rewrite Pos2Z.inj_xI. symmetry. apply (Z.div_unique _ 2 _ 1); lia. }
    assert (Hm : Z.pos q~1 mod 2 = 1).
    { rewrite Pos2Z.inj_xI. symmetry. apply (Z.mod_unique _ 2 (Z.pos q)); lia. }
    rewrite Hd, Hm. cbn [Z.eqb negb pos_bits].
    rewrite IH by lia. rewrite <- app_assoc. reflexivity.
  - rewrite indexSetToOutcomes_loop_pos by lia.
    rewrite sar_1_small, band_1_small by lia.
    assert (Hd : Z.pos q~0 / 2 = Z.pos q).
    { rewrite Pos2Z.inj_xO. symmetry. apply (Z.div_unique _ 2 _ 0); lia. }
    assert (Hm : Z.pos q~0 mod 2 = 0).
    { rewrite Pos2Z.inj_xO. symmetry. apply (Z.mod_unique _ 2 (Z.pos q)); lia. }
    rewrite Hd, Hm. cbn [Z.eqb negb pos_bits].
    apply IH. lia.
  - rewrite indexSetToOutcomes_loop_pos by lia.
    rewrite sar_1_small, band_1_small by lia.
    change (1 / 2) with 0. change (1 mod 2) with 1. cbn [Z.eqb negb pos_bits].
    apply indexSetToOutcomes_loop_nonpos. lia.
Qed.

Lemma indexSetToOutcomes_set_bits s :
  0 <= s < 2 ^ 31 -> indexSetToOutcomes s = set_bits s.
Proof.
  intros Hs. unfold indexSetToOutcomes, set_bits. destruct s as [|p|p].
  - apply indexSetToOutcomes_loop_nonpos. lia.
  - rewrite indexSetToOutcomes_loop_bits by lia. reflexivity.
  - lia.
Qed.

Lemma pos_bits_In p k i :
  In i (pos_bits p k) <-> k <= i /\ Z.testbit (Z.pos p) (i - k) = true.
Proof.
  revert k. induction p as [q IH|q IH|]; intros k; cbn [pos_bits In].
  - rewrite IH, Pos2Z.inj_xI. split.
    + intros [->|[Hk Hb]].
      * rewrite Z.sub_diag, Z.testbit_odd_0. lia.
      * split; [lia|].
        replace (i - k) with (Z.succ (i - (k + 1))) by lia.
        rewrite Z.testbit_odd_succ by lia. exact Hb.
    + intros [Hk Hb]. destruct (Z.eq_dec k i) as [->|Hne]; [now left|right].
      split; [lia|].
      replace (i - k) with (Z.succ (i - (k + 1))) in Hb by lia.
      rewrite Z.testbit_odd_succ in Hb by lia. exact Hb.
  - rewrite IH, Pos2Z.inj_xO. split.
    + intros [Hk Hb]. split; [lia|].
      replace (i - k) with (Z.succ (i - (k + 1))) by lia.
      rewrite Z.testbit_even_succ by lia. exact Hb.
    + intros [Hk Hb]. destruct (Z.eq_dec k i) as [->|Hne].
      * rewrite Z.sub_diag, Z.testbit_even_0 in Hb. discriminate.
      * split; [lia|].
        replace (i - k) with (Z.succ (i - (k + 1))) in Hb by lia.
        rewrite Z.testbit_even_succ in Hb by lia. exact Hb.
  - change 1 with (2 ^ 0). split.
    + intros [->|[]]. rewrite Z.sub_diag. split; [lia|].
      rewrite Z.pow2_bits_eqb by lia. reflexivity.
    + intros [Hk Hb]. left.
      rewrite Z.pow2_bits_eqb in Hb by lia.
      apply Z.eqb_eq in Hb. lia.
Qed.

Lemma pos_bits_sorted p k : StronglySorted Z.lt (pos_bits p k).
Proof.
  revert k. induction p as [q IH|q IH|]; intros k; cbn [pos_bits].
  - constructor; [apply IH|].
    apply List.Forall_forall. intros i Hi. apply pos_bits_In in Hi. lia.
  - apply IH.
  - repeat constructor.
Qed.

Lemma set_bits_In s i :
  0 <= s -> In i (set_bits s) <-> 0 <= i /\ Z.testbit s i = true.
Proof.
  intros Hs. destruct s as [|p|p]; cbn [set_bits].
  - rewrite Z.bits_0. cbn. intuition discriminate.
  - rewrite pos_bits_In, Z.sub_0_r. reflexivity.
  - lia.
Qed.

Lemma set_bits_sorted s : StronglySorted Z.lt (set_bits s).
Proof.
  destruct s; cbn [set_bits]; [constructor | apply pos_bits_sorted | constructor].
Qed.

Lemma testbit_high_false s i :
  0 <= s < 2 ^ 31 -> 31 <= i -> Z.testbit s i = false.
Proof.
  intros Hs Hi. destruct (Z.eq_dec s 0) as [->|Hne]; [apply Z.bits_0|].
  apply Z.bits_above_log2; [lia|].
  assert (Z.log2 s < 31) by (apply Z.log2_lt_pow2; lia). lia.
Qed.

Lemma set_bits_range s :
  0 <= s < 2 ^ 31 -> Forall (fun i => 0 <= i < 31) (set_bits s).
Proof.
  intros Hs. apply List.Forall_forall. intros i Hi.
  apply set_bits_In in Hi; [|lia]. destruct Hi as [Hi Hb].
  destruct (Z_lt_dec i 31); [lia|].
  rewrite testbit_high_false in Hb by lia. discriminate.
Qed.

Lemma outcomesToIndexSet_fold L a :
  0 <= a < 2 ^ 31 ->
  Forall (fun i => 0 <= i < 31) L ->
  let r := fold_left (fun acc idx => JS.bor acc (JS.shl 1 idx)) L a in
  0 <= r < 2 ^ 31 /\
  forall j, 0 <= j -> Z.testbit r j = Z.testbit a j || existsb (Z.eqb j) L.
Proof.
  intros Ha HL. revert a Ha.
  induction HL as [|i L Hi HL IH]; intros a Ha; cbn [fold_left existsb].
  - split; [assumption|]. intros j _. rewrite orb_false_r. reflexivity.
  - assert (Hp : 0 < 2 ^ i <= 2 ^ 30).
    { split; [apply Z.pow_pos_nonneg; lia | apply Z.pow_le_mono_r; lia]. }
    assert (Hb : JS.bor a (JS.shl 1 i) = Z.lor a (2 ^ i)).
    { unfold JS.bor. rewrite shl_1_small by lia.
      rewrite !ToInt32_id by (unfold int32; lia). reflexivity. }
    rewrite Hb.
    assert (Hr : 0 <= Z.lor a (2 ^ i) < 2 ^ 31).
    { split; [apply Z.lor_nonneg; lia|].
      apply (int32_lor a (2 ^ i)); unfold int32; lia. }
    destruct (IH _ Hr) as [IH1 IH2]. split; [exact IH1|].
    intros j Hj. rewrite IH2 by lia.
    rewrite Z.lor_spec, Z.pow2_bits_eqb by lia.
    rewrite (Z.eqb_sym i j), orb_assoc. reflexivity.
Qed.

Lemma outcomesToIndexSet_bits L :
  Forall (fun i => 0 <= i < 31) L ->
  0 <= outcomesToIndexSet L < 2 ^ 31 /\
  forall j, Z.testbit (outcomesToIndexSet L) j = true <-> In j L.
Proof.
  intros HL.
  destruct (outcomesToIndexSet_fold L 0 ltac:(lia) HL) as [Hr Hb].
  split; [exact Hr|]. intros j. fold (outcomesToIndexSet L) in Hb.
  destruct (Z_lt_dec j 0) as [Hneg|Hpos].
  - rewrite Z.testbit_neg_r by lia. split; [discriminate|].
    intros Hj. rewrite List.Forall_forall in HL. specialize (HL j Hj). lia.
  - rewrite Hb, Z.bits_0 by lia. cbn [orb].
    rewrite existsb_exists. split.
    + intros (x & Hx & He). apply Z.eqb_eq in He. now subst.
    + intros Hj. exists j. split; [assumption | apply Z.eqb_refl].
Qed.

Lemma StronglySorted_lt_le (l : list Z) :
  StronglySorted Z.lt l -> StronglySorted Z.le l.
Proof.
  induction 1 as [|x l Hs IH Hx]; constructor; [assumption|].
  eapply List.Forall_impl; [|exact Hx]. intros y Hy. cbn in Hy. lia.
Qed.

Lemma StronglySorted_lt_NoDup (l : list Z) :
  StronglySorted Z.lt l -> NoDup l.
Proof.
  induction 1 as [|x l Hs IH Hx]; constructor; [|assumption].
  rewrite list_elem_of_In. intros Hin.
  rewrite List.Forall_forall in Hx. specialize (Hx x Hin). lia.
Qed.

(** C10. For an index set [s] in [0, 2^31) the conversion to outcomes and
    back returns [s], and the outcomes are the positions of the set bits
    of [s] in strictly increasing order; for a list [L] of distinct
    outcome indices below 31 the conversion to an index set and back
    returns [L] sorted in ascending order. *)
Theorem indexSet_outcomes_roundtrip (s : Z) (L : list Z) :
  0 <= s < 2 ^ 31 ->
  NoDup L ->
  Forall (fun i => 0 <= i < 31) L ->
  outcomesToIndexSet (indexSetToOutcomes s) = s
  /\ StronglySorted Z.lt (indexSetToOutcomes s)
  /\ (forall i, In i (indexSetToOutcomes s) <-> 0 <= i /\ Z.testbit s i = true)
  /\ indexSetToOutcomes (outcomesToIndexSet L) = merge_sort Z.le L.
Proof.
  intros Hs HnL HL.
  rewrite (indexSetToOutcomes_set_bits s Hs).
  destruct (outcomesToIndexSet_bits (set_bits s) (set_bits_range s Hs))
    as [Hr Hb].
  destruct (outcomesToIndexSet_bits L HL) as [HrL HbL].
  rewrite (indexSetToOutcomes_set_bits _ HrL).
  split; [|split; [|split]].
  - apply Z.bits_inj'. intros j Hj.
    apply eq_true_iff_eq. rewrite Hb, set_bits_In by lia. intuition.
  - apply set_bits_sorted.
  - intros i. apply set_bits_In. lia.
  - apply StronglySorted_unique with (R := Z.le).
    + apply _.
    + apply StronglySorted_lt_le, set_bits_sorted.
    + apply StronglySorted_merge_sort; apply _.
    + apply NoDup_Permutation.
      * apply StronglySorted_lt_NoDup, set_bits_sorted.
      * rewrite merge_sort_Permutation. exact HnL.
      * intros x. rewrite merge_sort_Permutation, !list_elem_of_In.
        rewrite set_bits_In by lia. rewrite HbL. split; [tauto|].
        intros Hx. split; [|assumption].
        rewrite List.Forall_forall in HL. specialize (HL x Hx). lia.
Qed.

Lemma indexSet_outcomes_roundtrip_witness :
  outcomesToIndexSet (indexSetToOutcomes 5) = 5
  /\ StronglySorted Z.lt (indexSetToOutcomes 5)
  /\ (forall i, In i (indexSetToOutcomes 5) <-> 0 <= i /\ Z.testbit 5 i = true)
  /\ indexSetToOutcomes (outcomesToIndexSet [2; 0]) = merge_sort Z.le [2; 0].
Proof.
  apply (indexSet_outcomes_roundtrip 5 [2; 0]).
  - lia.
  - apply (bool_decide_unpack _). vm_compute. exact I.
  - repeat constructor; lia.
Defined.

(** ** Resolution *)

Lemma report_payout_by_oracle c nums :
  report_payout (oracle c) c nums =
  Ok (mkCondition (oracle c) (question_id c) (outcome_slot_count c) true
        nums (condition_id c)).
Proof. unfold report_payout. rewrite Z.eqb_refl. reflexivity. Qed.

Lemma report_payout_by_other signer c nums :
  signer <> oracle c -> report_payout signer c nums = Err UnauthorizedOracle.
Proof.
  intros Hne. unfold report_payout.
  destruct (signer =? oracle c) eqn:E; [apply Z.eqb_eq in E; congruence|].
  reflexivity.
Qed.

(** C6, at the failing input. A condition of oracle 7 already resolved
    with numerators [[0, 1]] is reported again by its oracle with
    [[1, 0]]: [report_payout] returns [Ok] and the stored vector is
    replaced, where the claim has the call fail with [AlreadyResolved]
    and leave the condition as it was. *)
Theorem report_payout_overwrites_resolved :
  report_payout 7 (mkCondition 7 [] 2 true [0; 1] []) [1; 0]
  = Ok (mkCondition 7 [] 2 true [1; 0] [])
  /\ report_payout 7 (mkCondition 7 [] 2 true [0; 1] []) [0; 1]
     = Ok (mkCondition 7 [] 2 true [0; 1] []).
Proof. split; reflexivity. Qed.

(** C7, counterexample: an unresolved condition of two outcome slots is
    reported by its oracle with the all-zero vector [[0, 0]]; the call
    returns [Ok], it does not fail with [InvalidPayoutVector]. *)
Lemma report_payout_vector_unchecked :
  ~ (forall (c : Condition) (nums : list Z),
        is_resolved c = false ->
        Z.of_nat (length nums) <> outcome_slot_count c
        \/ Forall (fun x => x = 0) nums ->
        report_payout (oracle c) c nums = Err InvalidPayoutVector).
Proof.
  intros H.
  specialize (H (mkCondition 7 [] 2 false [] []) [0; 0] eq_refl).
  cbn in H. discriminate H. right. repeat constructor.
Qed.

(** C7, as amended. For every unresolved condition, [report_payout] by
    the condition's oracle makes no check of the payout vector: with a
    vector whose length differs from the outcome slot count, or whose
    entries are all zero, the call succeeds, stores the vector and sets
    [is_resolved]; the other fields stay as they were. *)
Theorem report_payout_accepts_any_vector (c : Condition) (nums : list Z) :
  is_resolved c = false ->
  Z.of_nat (length nums) <> outcome_slot_count c
  \/ Forall (fun x => x = 0) nums ->
  exists c',
    report_payout (oracle c) c nums = Ok c'
    /\ payout_numerators c' = nums
    /\ is_resolved c' = true
    /\ oracle c' = oracle c
    /\ question_id c' = question_id c
    /\ outcome_slot_count c' = outcome_slot_count c
    /\ condition_id c' = condition_id c.
Proof.
  intros _ _. eexists. rewrite report_payout_by_oracle.
  repeat split.
Qed.

Lemma report_payout_accepts_any_vector_witness :
  exists c',
    report_payout 7 (mkCondition 7 [] 2 false [] []) [0; 0] = Ok c'
    /\ payout_numerators c' = [0; 0]
    /\ is_resolved c' = true
    /\ oracle c' = 7
    /\ question_id c' = []
    /\ outcome_slot_count c' = 2
    /\ condition_id c' = [].
Proof.
  apply (report_payout_accepts_any_vector (mkCondition 7 [] 2 false [] []) [0; 0]).
  - reflexivity.
  - right. repeat constructor.
Defined.

(** ** Payout arithmetic *)

Lemma list_sum_Z_nonneg l : Forall (fun x => 0 <= x) l -> 0 <= list_sum_Z l.
Proof.
  induction 1 as [|x l Hx Hl IH]; cbn; [lia|].
  unfold list_sum_Z in IH. lia.
Qed.

Lemma sum_u64_from_ok l acc :
  Forall (fun x => 0 <= x) l ->
  0 <= acc ->
  acc + list_sum_Z l <= u64_MAX ->
  sum_u64_from acc l = Ok (acc + list_sum_Z l).
Proof.
  intros Hl. revert acc.
  induction Hl as [|x l Hx Hl IH]; intros acc Ha Hs; cbn [sum_u64_from].
  - cbn. f_equal. lia.
  - pose proof (list_sum_Z_nonneg l Hl) as Hn.
    change (list_sum_Z (x :: l)) with (x + list_sum_Z l) in *.
    unfold checked_add.
    destruct (acc + x <=? u64_MAX) eqn:E; [|lia].
    cbn. rewrite IH by lia. f_equal. lia.
Qed.

Lemma sum_u64_from_overflow l acc :
  Forall (fun x => 0 <= x) l ->
  acc <= u64_MAX ->
  u64_MAX < acc + list_sum_Z l ->
  sum_u64_from acc l = Panicked.
Proof.
  intros Hl. revert acc.
  induction Hl as [|x l Hx Hl IH]; intros acc Ha Hs; cbn [sum_u64_from].
  - cbn in Hs. lia.
  - change (list_sum_Z (x :: l)) with (x + list_sum_Z l) in Hs.
    unfold checked_add.
    destruct (acc + x <=? u64_MAX) eqn:E; [|reflexivity].
    cbn. apply IH; lia.
Qed.

Lemma payout_numerator_from_zero nums i :
  payout_numerator_from nums 0 i = 0.
Proof.
  revert i. induction nums as [|x nums IH]; intros i; cbn; [reflexivity|].
  rewrite Z.bits_0, IH. reflexivity.
Qed.

Lemma payout_numerator_from_shift nums index_set i :
  0 <= i ->
  payout_numerator_from nums index_set (i + 1) =
  payout_numerator_from nums (Z.div2 index_set) i.
Proof.
  revert i. induction nums as [|x nums IH]; intros i Hi; cbn; [reflexivity|].
  rewrite IH by lia. rewrite Z.div2_div, Z.div2_bits by lia.
  replace (Z.succ i) with (i + 1) by lia. reflexivity.
Qed.

Lemma payout_numerator_from_bound nums index_set i :
  Forall (fun x => 0 <= x) nums ->
  0 <= payout_numerator_from nums index_set i <= list_sum_Z nums.
Proof.
  intros Hn. revert i.
  induction Hn as [|x nums Hx Hn IH]; intros i; cbn; [lia|].
  specialize (IH (i + 1)). unfold list_sum_Z in IH.
  destruct (Z.testbit index_set i); lia.
Qed.

(** The sum of the entries at the listed positions. *)
Lemma bits_sum_nil p k :
  foldr (fun i acc => nth (Z.to_nat i) [] 0 + acc) 0 (pos_bits p k) = 0.
Proof.
  generalize (pos_bits p k). intros l.
  induction l as [|i l IH]; cbn [foldr]; [reflexivity|].
  rewrite IH. destruct (Z.to_nat i); reflexivity.
Qed.

Lemma bits_sum_cons x nums p k :
  0 <= k ->
  foldr (fun i acc => nth (Z.to_nat i) (x :: nums) 0 + acc) 0
        (pos_bits p (k + 1)) =
  foldr (fun i acc => nth (Z.to_nat i) nums 0 + acc) 0 (pos_bits p k).
Proof.
  revert k. induction p as [q IH|q IH|]; intros k Hk; cbn [pos_bits foldr].
  - rewrite IH by lia.
    replace (Z.to_nat (k + 1)) with (S (Z.to_nat k)) by lia. reflexivity.
  - apply IH. lia.
  - replace (Z.to_nat (k + 1)) with (S (Z.to_nat k)) by lia. reflexivity.
Qed.

Lemma payout_numerator_pos_bits nums p :
  payout_numerator_from nums (Z.pos p) 0 =
  foldr (fun i acc => nth (Z.to_nat i) nums 0 + acc) 0 (pos_bits p 0).
Proof.
  revert nums. induction p as [q IH|q IH|]; intros [|x nums].
  - rewrite bits_sum_nil. reflexivity.
  - cbn [payout_numerator_from pos_bits foldr].
    rewrite (payout_numerator_from_shift nums _ 0) by lia.
    rewrite (bits_sum_cons x nums q 0) by lia.
    change (Z.div2 (Z.pos q~1)) with (Z.pos q). rewrite IH. reflexivity.
  - rewrite bits_sum_nil. reflexivity.
  - cbn [payout_numerator_from pos_bits foldr].
    rewrite (payout_numerator_from_shift nums _ 0) by lia.
    rewrite (bits_sum_cons x nums q 0) by lia.
    change (Z.div2 (Z.pos q~0)) with (Z.pos q). rewrite IH. reflexivity.
  - reflexivity.
  - cbn [payout_numerator_from pos_bits foldr].
    rewrite (payout_numerator_from_shift nums _ 0) by lia.
    change (Z.div2 1) with 0. rewrite payout_numerator_from_zero.
    reflexivity.
Qed.

Lemma calculate_payout_numerator_bits nums index_set :
  0 <= index_set ->
  calculate_payout_numerator nums index_set =
  numerator_over_bits nums index_set.
Proof.
  intros Hi. unfold calculate_payout_numerator, numerator_over_bits.
  destruct index_set as [|p|p].
  - apply payout_numerator_from_zero.
  - apply payout_numerator_pos_bits.
  - lia.
Qed.

(** C5, as amended. With 64-bit numerators and amount, the payout of an
    index set is the floor of [amount * numerator / denominator] whenever
    the denominator, the sum of all numerators, is not zero and fits 64
    bits; the numerator is the sum of the numerators at the set bits of
    the index set, the product is formed in 128 bits and the result is
    exact. When the sum of the numerators is zero or leaves 64 bits the
    computation panics. Numerators [[0, 1]], amount 100, index set
    [0b10] give 100; numerators [[1, 1]] give 50 for amount 100 and 0 for
    amount 1. *)
Theorem payoutFor_exact (nums : list Z) (index_set amount : Z) :
  Forall u64 nums ->
  u64 amount ->
  0 <= index_set ->
  payoutFor nums index_set amount =
    (if (list_sum_Z nums =? 0) || (u64_MAX <? list_sum_Z nums) then Panicked
     else Ok (amount * numerator_over_bits nums index_set / list_sum_Z nums))
  /\ payoutFor [0; 1] 2 100 = Ok 100
  /\ payoutFor [1; 1] 2 100 = Ok 50
  /\ payoutFor [1; 1] 2 1 = Ok 0.
Proof.
  intros Hn Ha Hi. split; [|repeat split; reflexivity].
  assert (Hn' : Forall (fun x => 0 <= x) nums).
  { eapply List.Forall_impl; [|exact Hn]. intros x [Hx _]. exact Hx. }
  pose proof (list_sum_Z_nonneg nums Hn') as Hs0.
  unfold payoutFor, sum_u64.
  destruct (u64_MAX <? list_sum_Z nums) eqn:Eo.
  { apply Z.ltb_lt in Eo. rewrite orb_true_r.
    rewrite sum_u64_from_overflow; [reflexivity | exact Hn' | | lia].
    unfold u64_MAX. lia. }
  apply Z.ltb_ge in Eo. rewrite orb_false_r.
  rewrite sum_u64_from_ok by (assumption || lia). cbn [mbind Result_bind].
  rewrite Z.add_0_l, <- (calculate_payout_numerator_bits nums index_set Hi).
  pose proof (payout_numerator_from_bound nums index_set 0 Hn') as Hb.
  fold (calculate_payout_numerator nums index_set) in Hb.
  set (num := calculate_payout_numerator nums index_set) in *.
  set (den := list_sum_Z nums) in *.
  unfold u64, u64_MAX in *. unfold payout, checked_mul_u128, u128_MAX.
  assert (Hp : amount * num <= 2 ^ 128 - 1).
  { assert (amount * num <= (2 ^ 64 - 1) * (2 ^ 64 - 1))
      by (apply Z.mul_le_mono_nonneg; lia).
    lia. }
  destruct (amount * num <=? 2 ^ 128 - 1) eqn:E; [|lia].
  cbn [unwrap mbind Result_bind]. unfold checked_div_u128.
  destruct (den =? 0) eqn:E0; [reflexivity|].
  cbn [unwrap mbind Result_bind mret Result_ret]. f_equal.
  unfold as_u64. apply Z.mod_small.
  assert (0 <= amount * num / den) by (apply Z.div_pos; nia).
  assert (amount * num / den <= amount).
  { apply Z.div_le_upper_bound; [lia|]. nia. }
  lia.
Qed.

Lemma payoutFor_exact_witness :
  payoutFor [2 ^ 62; 2 ^ 62] 2 (2 ^ 63) =
    Ok (2 ^ 63 * numerator_over_bits [2 ^ 62; 2 ^ 62] 2
        / list_sum_Z [2 ^ 62; 2 ^ 62])
  /\ payoutFor [0; 1] 2 100 = Ok 100
  /\ payoutFor [1; 1] 2 100 = Ok 50
  /\ payoutFor [1; 1] 2 1 = Ok 0.
Proof.
  apply (payoutFor_exact [2 ^ 62; 2 ^ 62] 2 (2 ^ 63)).
  - repeat constructor; vm_compute; discriminate.
  - split; vm_compute; discriminate.
  - lia.
Defined.

(** C5, counterexample. The 64-bit numerators [[2^63, 2^63]] add up to
    [2^64]: for index set [0b10] and amount 100 the floor of
    [amount * numerator / denominator] is 50, and the computation panics
    on the sum of the numerators. *)
Lemma payoutFor_floor_fails_beyond_u64 :
  ~ (forall (nums : list Z) (index_set amount : Z),
        Forall u64 nums ->
        u64 amount ->
        0 <= index_set ->
        0 < list_sum_Z nums ->
        payoutFor nums index_set amount =
        Ok (amount * numerator_over_bits nums index_set / list_sum_Z nums))
  /\ payoutFor [2 ^ 63; 2 ^ 63] 2 100 = Panicked
  /\ 100 * numerator_over_bits [2 ^ 63; 2 ^ 63] 2
       / list_sum_Z [2 ^ 63; 2 ^ 63] = 50.
Proof.
  split; [|split; vm_compute; reflexivity].
  intros H. specialize (H [2 ^ 63; 2 ^ 63] 2 100).
  assert (Hn : Forall u64 [2 ^ 63; 2 ^ 63])
    by (repeat constructor; vm_compute; discriminate).
  assert (Ha : u64 100) by (split; vm_compute; discriminate).
  specialize (H Hn Ha ltac:(lia) ltac:(vm_compute; reflexivity)).
  vm_compute in H. discriminate H.
Qed.

(** ** Redemption: burns come before the transfer *)

Lemma burnClaim_frame i u a L L' :
  burnClaim i u a L = Ok L' ->
  vaults L' = vaults L /\ collateral L' = collateral L.
Proof.
  unfold burnClaim.
  destruct (checked_sub (claim L u i) a), (checked_sub (supply L i) a);
    intros H; inversion H; subst; cbn; auto.
Qed.

Lemma burn_all_frame js u a L L' :
  burn_all js u a L = Ok L' ->
  vaults L' = vaults L /\ collateral L' = collateral L.
Proof.
  revert L. induction js as [|i js IH]; intros L; cbn [burn_all].
  - intros H. inversion H; subst. auto.
  - destruct (burnClaim i u a L) as [L1| |] eqn:E; cbn; try discriminate.
    intros H. apply IH in H. apply burnClaim_frame in E.
    destruct H as [-> ->]. exact E.
Qed.

Lemma burn_sets_frame user amount sets L L' :
  burn_sets user amount sets L = Ok L' ->
  vaults L' = vaults L /\ collateral L' = collateral L.
Proof.
  revert L. induction sets as [|s sets IH]; intros L; cbn [burn_sets].
  - intros H. inversion H; subst. auto.
  - destruct (token_burn user s amount L) as [L1| |] eqn:E; cbn;
      try discriminate.
    intros H. apply IH in H. apply burn_all_frame in E.
    destruct H as [-> ->]. exact E.
Qed.

Lemma redeem_loop_burns condition user den amount index_sets total L tr :
  let r := redeem_loop condition user den amount index_sets total L tr in
  exists burned rest,
    index_sets = burned ++ rest
    /\ burn_sets user amount burned L = Ok (run_ledger r)
    /\ run_trace r = tr ++ map (fun s => EvBurn s amount) burned
    /\ (is_ok (run_result r) = true -> rest = []).
Proof.
  revert total L tr.
  induction index_sets as [|s l IH]; intros total L tr; cbn [redeem_loop].
  - exists [], []. cbn. rewrite app_nil_r. auto.
  - cbv zeta.
    destruct (payout amount _ den) as [p| |];
      [|exists [], (s :: l); cbn; rewrite app_nil_r;
        repeat split; auto; discriminate..].
    destruct (checked_add total p) as [total'|];
      [|exists [], (s :: l); cbn; rewrite app_nil_r;
        repeat split; auto; discriminate].
    destruct (token_burn user s amount L) as [L'| |] eqn:Eb;
      [|exists [], (s :: l); cbn; rewrite app_nil_r;
        repeat split; auto; discriminate..].
    destruct (IH total' L' (tr ++ [EvBurn s amount]))
      as (burned & rest & Hsplit & Hb & Ht & Hok).
    exists (s :: burned), rest. repeat split.
    + cbn. congruence.
    + cbn [burn_sets]. rewrite Eb. exact Hb.
    + rewrite Ht, <- app_assoc. reflexivity.
    + exact Hok.
Qed.

(** C9. In [redeem_positions] every burn is made before the transfer.
    When the run succeeds, the claims of all listed index sets have been
    burnt, in order, and the single transfer out of the vault comes last.
    When the run fails, the ledgers at the failure point are the initial
    ones with the claims of a prefix of the index sets burnt and nothing
    else changed: the trace holds no transfer, the vaults and every
    user's collateral are as they were. *)
Theorem redeem_burns_before_transfer
    (condition : Condition) (user collateral_mint : Pubkey)
    (index_sets : list Z) (amount : Z) (L : Ledger) :
  let r := redeem_positions condition user collateral_mint index_sets amount L in
  match run_result r with
  | Ok _ =>
      exists Lb total,
        burn_sets user amount index_sets L = Ok Lb
        /\ token_transfer collateral_mint user total Lb = Ok (run_ledger r)
        /\ run_trace r =
           map (fun s => EvBurn s amount) index_sets ++ [EvTransfer total]
  | _ =>
      exists burned rest,
        index_sets = burned ++ rest
        /\ burn_sets user amount burned L = Ok (run_ledger r)
        /\ run_trace r = map (fun s => EvBurn s amount) burned
        /\ vaults (run_ledger r) = vaults L
        /\ collateral (run_ledger r) = collateral L
  end.
Proof.
  cbv zeta. unfold redeem_positions.
  assert (Hnone : exists burned rest : list Z,
             index_sets = burned ++ rest
             /\ burn_sets user amount burned L = Ok L
             /\ @nil Event = map (fun s => EvBurn s amount) burned
             /\ vaults L = vaults L /\ collateral L = collateral L).
  { exists [], index_sets. cbn. auto. }
  destruct (is_resolved condition); cbn [negb run_result run_ledger run_trace];
    [|exact Hnone].
  destruct (sum_u64 (payout_numerators condition)) as [den| |];
    cbn [run_result run_ledger run_trace]; [|exact Hnone..].
  destruct (redeem_loop_burns condition user den amount index_sets 0 L [])
    as (burned & rest & Hsplit & Hb & Ht & Hok).
  cbv zeta in Hb, Ht, Hok. cbn [app] in Ht.
  destruct (burn_sets_frame _ _ _ _ _ Hb) as [Hv Hc].
  set (r := redeem_loop condition user den amount index_sets 0 L []) in *.
  destruct (run_result r) as [total| |] eqn:Er;
    cbn [run_result run_ledger run_trace].
  - specialize (Hok eq_refl). subst rest. rewrite app_nil_r in Hsplit.
    subst burned.
    destruct (token_transfer collateral_mint user total (run_ledger r))
      as [L'| |] eqn:Et; cbn [run_result run_ledger run_trace].
    + exists (run_ledger r), total. rewrite Ht. auto.
    + exists index_sets, []. rewrite app_nil_r. auto.
    + exists index_sets, []. rewrite app_nil_r. auto.
  - exists burned, rest. auto.
  - exists burned, rest. auto.
Qed.

(** ** The ledger primitives *)

Lemma checked_add_Some a b c : checked_add a b = Some c -> c = a + b /\ a + b <= u64_MAX.
Proof.
  unfold checked_add. destruct (a + b <=? u64_MAX) eqn:E; [|discriminate].
  intros H. inversion H. lia.
Qed.

Lemma checked_sub_Some a b c : checked_sub a b = Some c -> c = a - b /\ b <= a.
Proof.
  unfold checked_sub. destruct (b <=? a) eqn:E; [|discriminate].
  intros H. inversion H. lia.
Qed.

Lemma checked_sub_ok a b : b <= a -> checked_sub a b = Some (a - b).
Proof. intros H. unfold checked_sub. destruct (b <=? a) eqn:E; [reflexivity|lia]. Qed.

Lemma checked_add_ok a b : a + b <= u64_MAX -> checked_add a b = Some (a + b).
Proof.
  intros H. unfold checked_add.
  destruct (a + b <=? u64_MAX) eqn:E; [reflexivity|lia].
Qed.

Lemma mintClaim_spec i u a L L' :
  mintClaim i u a L = Ok L' ->
  vaults L' = vaults L /\ collateral L' = collateral L
  /\ (forall j, supply L' j = supply L j + (if decide (j = i) then a else 0))
  /\ (forall w j, claim L' w j =
                  claim L w j + (if decide (w = u /\ j = i) then a else 0)).
Proof.
  unfold mintClaim.
  destruct (checked_add (claim L u i) a) as [c|] eqn:Ec; [|discriminate].
  destruct (checked_add (supply L i) a) as [s|] eqn:Es; [|discriminate].
  apply checked_add_Some in Ec as [-> _]. apply checked_add_Some in Es as [-> _].
  intros H. inversion H; subst; clear H. cbn. repeat split.
  - intros j. unfold supply at 1. cbn. rewrite lookup_insert.
    destruct (decide (i = j)) as [->|Hne]; cbn.
    + rewrite decide_True by reflexivity. reflexivity.
    + rewrite decide_False by congruence. unfold supply. lia.
  - intros w j. unfold claim at 1. cbn. rewrite lookup_insert.
    destruct (decide ((u, i) = (w, j))) as [Heq|Hne]; cbn.
    + inversion Heq; subst. rewrite decide_True by auto. reflexivity.
    + rewrite decide_False by (intros [-> ->]; congruence).
      unfold claim. lia.
Qed.

Lemma burnClaim_spec i u a L L' :
  burnClaim i u a L = Ok L' ->
  vaults L' = vaults L /\ collateral L' = collateral L
  /\ (forall j, supply L' j = supply L j - (if decide (j = i) then a else 0))
  /\ (forall w j, claim L' w j =
                  claim L w j - (if decide (w = u /\ j = i) then a else 0)).
Proof.
  unfold burnClaim.
  destruct (checked_sub (claim L u i) a) as [c|] eqn:Ec; [|discriminate].
  destruct (checked_sub (supply L i) a) as [s|] eqn:Es; [|discriminate].
  apply checked_sub_Some in Ec as [-> _]. apply checked_sub_Some in Es as [-> _].
  intros H. inversion H; subst; clear H. cbn. repeat split.
  - intros j. unfold supply at 1. cbn. rewrite lookup_insert.
    destruct (decide (i = j)) as [->|Hne]; cbn.
    + rewrite decide_True by reflexivity. reflexivity.
    + rewrite decide_False by congruence. unfold supply. lia.
  - intros w j. unfold claim at 1. cbn. rewrite lookup_insert.
    destruct (decide ((u, i) = (w, j))) as [Heq|Hne]; cbn.
    + inversion Heq; subst. rewrite decide_True by auto. reflexivity.
    + rewrite decide_False by (intros [-> ->]; congruence).
      unfold claim. lia.
Qed.

Lemma burnClaim_ok i u a L :
  a <= claim L u i -> a <= supply L i -> exists L', burnClaim i u a L = Ok L'.
Proof.
  intros Hc Hs. unfold burnClaim.
  rewrite (checked_sub_ok _ _ Hc), (checked_sub_ok _ _ Hs). eauto.
Qed.

Lemma mint_all_spec js u a L L' :
  NoDup js ->
  mint_all js u a L = Ok L' ->
  vaults L' = vaults L /\ collateral L' = collateral L
  /\ (forall j, supply L' j = supply L j + (if decide (j ∈ js) then a else 0))
  /\ (forall w j, claim L' w j =
                  claim L w j + (if decide (w = u /\ j ∈ js) then a else 0)).
Proof.
  intros Hnd. revert L.
  induction Hnd as [|i js Hi Hnd IH]; intros L; cbn [mint_all].
  - intros H. inversion H; subst. repeat split.
    + intros j. rewrite decide_False by (apply not_elem_of_nil). lia.
    + intros w j. rewrite decide_False by (intros [_ H']; inversion H'). lia.
  - destruct (mintClaim i u a L) as [L1| |] eqn:E; cbn; try discriminate.
    intros H. apply IH in H. apply mintClaim_spec in E.
    destruct H as (Hv & Hc & Hs & Hcl). destruct E as (Hv1 & Hc1 & Hs1 & Hcl1).
    repeat split; [congruence | congruence | |].
    + intros j. rewrite Hs, Hs1.
      destruct (decide (j = i)) as [->|Hne].
      * rewrite (decide_False (P := i ∈ js)) by assumption.
        rewrite decide_True by (apply elem_of_cons; auto). lia.
      * destruct (decide (j ∈ js)) as [Hin|Hnin].
        -- rewrite decide_True by (apply elem_of_cons; auto). lia.
        -- rewrite decide_False; [lia|].
           intros Hin. apply elem_of_cons in Hin as [?|?]; auto.
    + intros w j. rewrite Hcl, Hcl1.
      destruct (decide (w = u /\ j = i)) as [[-> ->]|Hne].
      * rewrite (decide_False (P := u = u /\ i ∈ js)) by tauto.
        rewrite decide_True by (split; [reflexivity | apply elem_of_cons; auto]).
        lia.
      * destruct (decide (w = u /\ j ∈ js)) as [[-> Hin]|Hnin].
        -- rewrite decide_True by (split; [reflexivity | apply elem_of_cons; auto]).
           lia.
        -- rewrite decide_False; [lia|].
           intros [-> Hin]. apply elem_of_cons in Hin as [?|?]; tauto.
Qed.

Lemma burn_all_spec js u a L L' :
  NoDup js ->
  burn_all js u a L = Ok L' ->
  vaults L' = vaults L /\ collateral L' = collateral L
  /\ (forall j, supply L' j = supply L j - (if decide (j ∈ js) then a else 0))
  /\ (forall w j, claim L' w j =
                  claim L w j - (if decide (w = u /\ j ∈ js) then a else 0)).
Proof.
  intros Hnd. revert L.
  induction Hnd as [|i js Hi Hnd IH]; intros L; cbn [burn_all].
  - intros H. inversion H; subst. repeat split.
    + intros j. rewrite decide_False by (apply not_elem_of_nil). lia.
    + intros w j. rewrite decide_False by (intros [_ H']; inversion H'). lia.
  - destruct (burnClaim i u a L) as [L1| |] eqn:E; cbn; try discriminate.
    intros H. apply IH in H. apply burnClaim_spec in E.
    destruct H as (Hv & Hc & Hs & Hcl). destruct E as (Hv1 & Hc1 & Hs1 & Hcl1).
    repeat split; [congruence | congruence | |].
    + intros j. rewrite Hs, Hs1.
      destruct (decide (j = i)) as [->|Hne].
      * rewrite (decide_False (P := i ∈ js)) by assumption.
        rewrite decide_True by (apply elem_of_cons; auto). lia.
      * destruct (decide (j ∈ js)) as [Hin|Hnin].
        -- rewrite decide_True by (apply elem_of_cons; auto). lia.
        -- rewrite decide_False; [lia|].
           intros Hin. apply elem_of_cons in Hin as [?|?]; auto.
    + intros w j. rewrite Hcl, Hcl1.
      destruct (decide (w = u /\ j = i)) as [[-> ->]|Hne].
      * rewrite (decide_False (P := u = u /\ i ∈ js)) by tauto.
        rewrite decide_True by (split; [reflexivity | apply elem_of_cons; auto]).
        lia.
      * destruct (decide (w = u /\ j ∈ js)) as [[-> Hin]|Hnin].
        -- rewrite decide_True by (split; [reflexivity | apply elem_of_cons; auto]).
           lia.
        -- rewrite decide_False; [lia|].
           intros [-> Hin]. apply elem_of_cons in Hin as [?|?]; tauto.
Qed.

Lemma burn_all_ok js u a L :
  NoDup js ->
  (forall j, j ∈ js -> a <= claim L u j /\ a <= supply L j) ->
  exists L', burn_all js u a L = Ok L'.
Proof.
  intros Hnd. revert L.
  induction Hnd as [|i js Hi Hnd IH]; intros L Hpre; cbn [burn_all].
  - eauto.
  - destruct (Hpre i ltac:(apply elem_of_cons; auto)) as [Hc Hs].
    destruct (burnClaim_ok i u a L Hc Hs) as [L1 E]. rewrite E. cbn.
    apply burnClaim_spec in E. destruct E as (_ & _ & Hs1 & Hcl1).
    apply IH. intros j Hj.
    rewrite Hs1, Hcl1.
    assert (j <> i) by congruence.
    rewrite decide_False by tauto. rewrite decide_False by assumption.
    destruct (Hpre j ltac:(apply elem_of_cons; auto)). lia.
Qed.

Lemma debit_spec k u a L L' :
  debit k u a L = Ok L' ->
  a <= holding L u k
  /\ vaults L' = vaults L /\ supplies L' = supplies L /\ claims L' = claims L
  /\ (forall w k', holding L' w k' =
                   holding L w k' - (if decide (w = u /\ k' = k) then a else 0)).
Proof.
  unfold debit.
  destruct (checked_sub (holding L u k) a) as [b|] eqn:Eb; [|discriminate].
  apply checked_sub_Some in Eb as [-> Hle].
  intros H. inversion H; subst; clear H. cbn. repeat split; [assumption|].
  intros w k'. unfold holding at 1. cbn. rewrite lookup_insert.
  destruct (decide ((u, k) = (w, k'))) as [Heq|Hne]; cbn.
  - inversion Heq; subst. rewrite decide_True by auto. reflexivity.
  - rewrite decide_False by (intros [-> ->]; congruence). unfold holding. lia.
Qed.

Lemma credit_spec k u a L L' :
  credit k u a L = Ok L' ->
  vaults L' = vaults L /\ supplies L' = supplies L /\ claims L' = claims L
  /\ (forall w k', holding L' w k' =
                   holding L w k' + (if decide (w = u /\ k' = k) then a else 0)).
Proof.
  unfold credit.
  destruct (checked_add (holding L u k) a) as [b|] eqn:Eb; [|discriminate].
  apply checked_add_Some in Eb as [-> Hle].
  intros H. inversion H; subst; clear H. cbn. repeat split.
  intros w k'. unfold holding at 1. cbn. rewrite lookup_insert.
  destruct (decide ((u, k) = (w, k'))) as [Heq|Hne]; cbn.
  - inversion Heq; subst. rewrite decide_True by auto. reflexivity.
  - rewrite decide_False by (intros [-> ->]; congruence). unfold holding. lia.
Qed.

Lemma credit_ok k u a L :
  holding L u k + a <= u64_MAX -> exists L', credit k u a L = Ok L'.
Proof. intros H. unfold credit. rewrite (checked_add_ok _ _ H). eauto. Qed.

Lemma vault_credit_spec k a L L' :
  vault_credit k a L = Ok L' ->
  supplies L' = supplies L /\ collateral L' = collateral L
  /\ claims L' = claims L
  /\ (forall k', vault_balance L' k' =
                 vault_balance L k' + (if decide (k' = k) then a else 0)).
Proof.
  unfold vault_credit.
  destruct (checked_add (vault_balance L k) a) as [b|] eqn:Eb; [|discriminate].
  apply checked_add_Some in Eb as [-> Hle].
  intros H. inversion H; subst; clear H. cbn. repeat split.
  intros k'. unfold vault_balance at 1. cbn. rewrite lookup_insert.
  destruct (decide (k = k')) as [->|Hne]; cbn.
  - rewrite decide_True by reflexivity. reflexivity.
  - rewrite decide_False by congruence. unfold vault_balance. lia.
Qed.

Lemma vault_debit_spec k a L L' :
  vault_debit k a L = Ok L' ->
  supplies L' = supplies L /\ collateral L' = collateral L
  /\ claims L' = claims L
  /\ (forall k', vault_balance L' k' =
                 vault_balance L k' - (if decide (k' = k) then a else 0)).
Proof.
  unfold vault_debit.
  destruct (checked_sub (vault_balance L k) a) as [b|] eqn:Eb; [|discriminate].
  apply checked_sub_Some in Eb as [-> Hle].
  intros H. inversion H; subst; clear H. cbn. repeat split.
  intros k'. unfold vault_balance at 1. cbn. rewrite lookup_insert.
  destruct (decide (k = k')) as [->|Hne]; cbn.
  - rewrite decide_True by reflexivity. reflexivity.
  - rewrite decide_False by congruence. unfold vault_balance. lia.
Qed.

Lemma vault_debit_ok k a L :
  a <= vault_balance L k -> exists L', vault_debit k a L = Ok L'.
Proof. intros H. unfold vault_debit. rewrite (checked_sub_ok _ _ H). eauto. Qed.

Lemma vault_balance_eq L L' k :
  vaults L' = vaults L -> vault_balance L' k = vault_balance L k.
Proof. unfold vault_balance. intros ->. reflexivity. Qed.

Lemma supply_eq L L' j : supplies L' = supplies L -> supply L' j = supply L j.
Proof. unfold supply. intros ->. reflexivity. Qed.

Lemma holding_eq L L' w k :
  collateral L' = collateral L -> holding L' w k = holding L w k.
Proof. unfold holding. intros ->. reflexivity. Qed.

Lemma claim_eq L L' w j : claims L' = claims L -> claim L' w j = claim L w j.
Proof. unfold claim. intros ->. reflexivity. Qed.

(** ** Valid partitions cover every outcome slot once *)

Lemma set_bits_elem s i : i ∈ set_bits s -> 0 <= i /\ 0 < s /\ Z.testbit s i = true.
Proof.
  rewrite list_elem_of_In. destruct s as [|p|p]; cbn [set_bits In]; try tauto.
  intros H. apply pos_bits_In in H. rewrite Z.sub_0_r in H.
  destruct H as [H0 Hb]. split; [lia|]. split; [apply Pos2Z.is_pos | exact Hb].
Qed.

Lemma covered_cons s P : covered (s :: P) = set_bits s ++ covered P.
Proof. reflexivity. Qed.

Lemma covered_nonneg P i : i ∈ covered P -> 0 <= i.
Proof.
  induction P as [|s P IH]; [intros H; inversion H|].
  rewrite covered_cons, elem_of_app. intros [H|H]; [|auto].
  apply set_bits_elem in H. lia.
Qed.

Lemma validate_loop_disjoint P full u u' :
  validate_loop P full u = Some u' ->
  NoDup (covered P) /\ (forall i, i ∈ covered P -> Z.testbit u i = false).
Proof.
  revert u. induction P as [|s P IH]; intros u; cbn [validate_loop].
  - intros _. split; [constructor | intros i H; inversion H].
  - destruct (s =? 0); [discriminate|].
    destruct (Z.land u s =? 0) eqn:El; [|discriminate]. cbn [negb].
    destruct (s >? full); [discriminate|].
    intros H. apply IH in H as [Hnd Hfree]. apply Z.eqb_eq in El.
    rewrite covered_cons. split.
    + apply NoDup_app. split; [|split; [|exact Hnd]].
      * apply StronglySorted_lt_NoDup, set_bits_sorted.
      * intros i Hi Hi'. apply set_bits_elem in Hi as (_ & _ & Hb).
        specialize (Hfree i Hi'). rewrite Z.lor_spec, Hb, orb_true_r in Hfree.
        discriminate.
    + intros i Hi. apply elem_of_app in Hi as [Hi|Hi].
      * apply set_bits_elem in Hi as (_ & _ & Hb).
        assert (Hl : Z.testbit (Z.land u s) i = false)
          by (rewrite El; apply Z.bits_0).
        rewrite Z.land_spec, Hb, andb_true_r in Hl. exact Hl.
      * specialize (Hfree i Hi). rewrite Z.lor_spec in Hfree.
        apply orb_false_iff in Hfree. tauto.
Qed.

Lemma validate_loop_bits P full u u' :
  validate_loop P full u = Some u' ->
  0 <= u' ->
  0 <= u /\
  forall i, 0 <= i ->
    Z.testbit u' i = Z.testbit u i || bool_decide (i ∈ covered P).
Proof.
  revert u. induction P as [|s P IH]; intros u; cbn [validate_loop].
  - intros H Hu. inversion H; subst. split; [assumption|].
    intros i _. rewrite bool_decide_eq_false_2 by (intros H'; inversion H').
    rewrite orb_false_r. reflexivity.
  - destruct (s =? 0); [discriminate|].
    destruct (negb (Z.land u s =? 0)); [discriminate|].
    destruct (s >? full); [discriminate|].
    intros H Hu'. destruct (IH _ H Hu') as [Hlor Hbits].
    apply Z.lor_nonneg in Hlor as [Hu Hs]. split; [assumption|].
    intros i Hi. rewrite Hbits, Z.lor_spec, covered_cons by assumption.
    rewrite <- orb_assoc. f_equal.
    destruct (Z.testbit s i) eqn:Eb.
    + cbn. symmetry. apply bool_decide_eq_true_2, elem_of_app. left.
      apply list_elem_of_In, set_bits_In; auto.
    + cbn. apply bool_decide_ext. rewrite elem_of_app. split; [auto|].
      intros [Hin|Hin]; [|assumption].
      apply set_bits_elem in Hin as (_ & _ & Hb). congruence.
Qed.

Lemma validate_NoDup P n : validate P n = true -> NoDup (covered P).
Proof.
  unfold validate. cbv zeta.
  destruct (validate_loop P (Z.shiftl 1 n - 1) 0) as [u|] eqn:E; [|discriminate].
  intros _. apply validate_loop_disjoint in E. tauto.
Qed.

Lemma validate_covered P n :
  0 <= n -> validate P n = true ->
  forall i, i ∈ covered P <-> 0 <= i < n.
Proof.
  intros Hn. unfold validate. cbv zeta.
  destruct (validate_loop P (Z.shiftl 1 n - 1) 0) as [u|] eqn:E; [|discriminate].
  intros Hv. apply andb_true_iff in Hv as [Hu _]. apply Z.eqb_eq in Hu. subst u.
  assert (Hfull : Z.shiftl 1 n - 1 = Z.ones n).
  { rewrite Z.shiftl_1_l, Z.ones_equiv. lia. }
  rewrite Hfull in E.
  assert (Hpos : 0 <= Z.ones n).
  { rewrite Z.ones_equiv. assert (0 < 2 ^ n) by (apply Z.pow_pos_nonneg; lia). lia. }
  destruct (validate_loop_bits _ _ _ _ E Hpos) as [_ Hbits].
  intros i. split.
  - intros Hi. pose proof (covered_nonneg _ _ Hi) as Hi0.
    specialize (Hbits i Hi0).
    rewrite Z.testbit_ones_nonneg, Z.bits_0 in Hbits by lia.
    rewrite bool_decide_eq_true_2 in Hbits by assumption. cbn in Hbits.
    apply Z.ltb_lt in Hbits. lia.
  - intros [Hi0 Hin]. specialize (Hbits i Hi0).
    rewrite Z.testbit_ones_nonneg, Z.bits_0 in Hbits by lia.
    cbn in Hbits. assert (Hlt : (i <? n) = true) by (apply Z.ltb_lt; lia).
    rewrite Hlt in Hbits. symmetry in Hbits.
    apply bool_decide_eq_true_1 in Hbits. exact Hbits.
Qed.

(** ** Split and merge *)

Lemma split_spec c k a P u L L' :
  split c k a P u L = Ok L' ->
  0 < a /\ validate P (outcome_slot_count c) = true
  /\ a <= holding L u k
  /\ (forall k', vault_balance L' k' =
                 vault_balance L k' + (if decide (k' = k) then a else 0))
  /\ (forall j, supply L' j =
                supply L j + (if decide (j ∈ covered P) then a else 0))
  /\ (forall w k', holding L' w k' =
                   holding L w k' - (if decide (w = u /\ k' = k) then a else 0))
  /\ (forall w j, claim L' w j =
                  claim L w j
                  + (if decide (w = u /\ j ∈ covered P) then a else 0)).
Proof.
  unfold split.
  destruct (0 <? a) eqn:Ea; [|discriminate]. cbn [negb].
  destruct (validate P (outcome_slot_count c)) eqn:Ev; [|discriminate].
  cbn [negb].
  destruct (debit k u a L) as [L1| |] eqn:E1; cbn; try discriminate.
  destruct (vault_credit k a L1) as [L2| |] eqn:E2; cbn; try discriminate.
  intros E3.
  apply debit_spec in E1 as (Hle & Hv1 & Hs1 & Hc1 & Hh1).
  apply vault_credit_spec in E2 as (Hs2 & Hco2 & Hc2 & Hv2).
  apply mint_all_spec in E3 as (Hv3 & Hco3 & Hs3 & Hc3);
    [|eapply validate_NoDup; eassumption].
  split; [lia|]. split; [reflexivity|]. split; [assumption|].
  repeat split.
  - intros k'. rewrite (vault_balance_eq _ _ _ Hv3), Hv2.
    rewrite (vault_balance_eq _ _ _ Hv1). reflexivity.
  - intros j. rewrite Hs3, (supply_eq _ _ _ Hs2), (supply_eq _ _ _ Hs1).
    reflexivity.
  - intros w k'. rewrite (holding_eq _ _ _ _ Hco3), (holding_eq _ _ _ _ Hco2).
    apply Hh1.
  - intros w j. rewrite Hc3, (claim_eq _ _ _ _ Hc2), (claim_eq _ _ _ _ Hc1).
    reflexivity.
Qed.

Lemma merge_spec c k a P u L L' :
  merge c k a P u L = Ok L' ->
  validate P (outcome_slot_count c) = true
  /\ (forall k', vault_balance L' k' =
                 vault_balance L k' - (if decide (k' = k) then a else 0))
  /\ (forall j, supply L' j =
                supply L j - (if decide (j ∈ covered P) then a else 0))
  /\ (forall w k', holding L' w k' =
                   holding L w k' + (if decide (w = u /\ k' = k) then a else 0))
  /\ (forall w j, claim L' w j =
                  claim L w j
                  - (if decide (w = u /\ j ∈ covered P) then a else 0)).
Proof.
  unfold merge.
  destruct (validate P (outcome_slot_count c)) eqn:Ev; [|discriminate].
  cbn [negb].
  destruct (burn_all (covered P) u a L) as [L1| |] eqn:E1; cbn;
    try discriminate.
  destruct (vault_debit k a L1) as [L2| |] eqn:E2; cbn; try discriminate.
  intros E3.
  apply burn_all_spec in E1 as (Hv1 & Hco1 & Hs1 & Hc1);
    [|eapply validate_NoDup; eassumption].
  apply vault_debit_spec in E2 as (Hs2 & Hco2 & Hc2 & Hv2).
  apply credit_spec in E3 as (Hv3 & Hs3 & Hc3 & Hh3).
  split; [reflexivity|]. repeat split.
  - intros k'. rewrite (vault_balance_eq _ _ _ Hv3), Hv2.
    rewrite (vault_balance_eq _ _ _ Hv1). reflexivity.
  - intros j. rewrite (supply_eq _ _ _ Hs3), (supply_eq _ _ _ Hs2). apply Hs1.
  - intros w k'. rewrite Hh3, (holding_eq _ _ _ _ Hco2), (holding_eq _ _ _ _ Hco1).
    reflexivity.
  - intros w j. rewrite (claim_eq _ _ _ _ Hc3), (claim_eq _ _ _ _ Hc2). apply Hc1.
Qed.

Lemma merge_ok c k a P u L :
  validate P (outcome_slot_count c) = true ->
  (forall j, j ∈ covered P -> a <= claim L u j /\ a <= supply L j) ->
  a <= vault_balance L k ->
  holding L u k + a <= u64_MAX ->
  exists L', merge c k a P u L = Ok L'.
Proof.
  intros Hv Hpre Hvault Hhold. unfold merge. rewrite Hv. cbn [negb].
  destruct (burn_all_ok (covered P) u a L (validate_NoDup _ _ Hv) Hpre)
    as [L1 E1].
  rewrite E1. cbn.
  apply burn_all_spec in E1 as (Hv1 & Hco1 & _ & _);
    [|eapply validate_NoDup; eassumption].
  destruct (vault_debit_ok k a L1) as [L2 E2].
  { rewrite (vault_balance_eq _ _ _ Hv1). exact Hvault. }
  rewrite E2. cbn.
  apply vault_debit_spec in E2 as (_ & Hco2 & _ & _).
  apply credit_ok.
  rewrite (holding_eq _ _ _ _ Hco2), (holding_eq _ _ _ _ Hco1). exact Hhold.
Qed.

Lemma mintClaim_ok i u a L :
  claim L u i + a <= u64_MAX -> supply L i + a <= u64_MAX ->
  exists L', mintClaim i u a L = Ok L'.
Proof.
  intros Hc Hs. unfold mintClaim.
  rewrite (checked_add_ok _ _ Hc), (checked_add_ok _ _ Hs). eauto.
Qed.

Lemma mint_all_ok js u a L :
  NoDup js ->
  (forall j, j ∈ js -> claim L u j + a <= u64_MAX /\ supply L j + a <= u64_MAX) ->
  exists L', mint_all js u a L = Ok L'.
Proof.
  intros Hnd. revert L.
  induction Hnd as [|i js Hi Hnd IH]; intros L Hpre; cbn [mint_all].
  - eauto.
  - destruct (Hpre i ltac:(apply elem_of_cons; auto)) as [Hc Hs].
    destruct (mintClaim_ok i u a L Hc Hs) as [L1 E]. rewrite E. cbn.
    apply mintClaim_spec in E. destruct E as (_ & _ & Hs1 & Hcl1).
    apply IH. intros j Hj.
    rewrite Hs1, Hcl1.
    assert (j <> i) by congruence.
    rewrite decide_False by tauto. rewrite decide_False by assumption.
    destruct (Hpre j ltac:(apply elem_of_cons; auto)). lia.
Qed.

(** A split succeeds when the partition is valid, the amount positive,
    the payer holds the amount and no balance would leave 64 bits. *)
Lemma split_ok c k a P u L :
  validate P (outcome_slot_count c) = true ->
  0 < a ->
  a <= holding L u k ->
  vault_balance L k + a <= u64_MAX ->
  (forall j, j ∈ covered P ->
             claim L u j + a <= u64_MAX /\ supply L j + a <= u64_MAX) ->
  exists L', split c k a P u L = Ok L'.
Proof.
  intros Hv Ha Hh Hvault Hpre. unfold split. rewrite Hv.
  destruct (0 <? a) eqn:E; [|lia]. cbn [negb].
  unfold debit. rewrite (checked_sub_ok _ _ Hh). cbn [mbind Result_bind].
  unfold vault_credit.
  change (vault_balance (mkLedger (vaults L) (supplies L)
            (<[(u, k):=holding L u k - a]> (collateral L)) (claims L)) k)
    with (vault_balance L k).
  rewrite (checked_add_ok _ _ Hvault). cbn [mbind Result_bind].
  apply mint_all_ok; [eapply validate_NoDup; eassumption|].
  intros j Hj. exact (Hpre j Hj).
Qed.

Lemma ledger_wf_vault L k : ledger_wf L -> u64 (vault_balance L k).
Proof.
  intros (H & _). unfold vault_balance.
  destruct (vaults L !! k) as [v|] eqn:E; cbn.
  - exact (map_Forall_lookup_1 _ _ _ _ H E).
  - unfold u64, u64_MAX. lia.
Qed.

Lemma ledger_wf_supply L j : ledger_wf L -> u64 (supply L j).
Proof.
  intros (_ & H & _). unfold supply.
  destruct (supplies L !! j) as [v|] eqn:E; cbn.
  - exact (map_Forall_lookup_1 _ _ _ _ H E).
  - unfold u64, u64_MAX. lia.
Qed.

Lemma ledger_wf_holding L w k : ledger_wf L -> u64 (holding L w k).
Proof.
  intros (_ & _ & H & _). unfold holding.
  destruct (collateral L !! (w, k)) as [v|] eqn:E; cbn.
  - exact (map_Forall_lookup_1 _ _ _ _ H E).
  - unfold u64, u64_MAX. lia.
Qed.

Lemma ledger_wf_claim L w j : ledger_wf L -> u64 (claim L w j).
Proof.
  intros (_ & _ & _ & H). unfold claim.
  destruct (claims L !! (w, j)) as [v|] eqn:E; cbn.
  - exact (map_Forall_lookup_1 _ _ _ _ H E).
  - unfold u64, u64_MAX. lia.
Qed.

(** C8. On a ledger of 64-bit balances, for a valid partition [P] and an
    amount [a > 0]: when the split succeeds, the merge with the same
    amount, partition, collateral asset and payer succeeds on the ledger
    the split produced, and it restores every vault balance and every
    outcome position supply to their values before the split, and with
    them every user's collateral and claim units. *)
Theorem split_merge_inverse
    (condition : Condition) (collateral_asset : Pubkey) (a : Z)
    (P : list Z) (payer : Pubkey) (L L1 : Ledger) :
  ledger_wf L ->
  validate P (outcome_slot_count condition) = true ->
  0 < a ->
  split condition collateral_asset a P payer L = Ok L1 ->
  exists L2,
    merge condition collateral_asset a P payer L1 = Ok L2
    /\ (forall k, vault_balance L2 k = vault_balance L k)
    /\ (forall i, supply L2 i = supply L i)
    /\ (forall w k, holding L2 w k = holding L w k)
    /\ (forall w i, claim L2 w i = claim L w i).
Proof.
  intros Hwf Hv Ha Hs.
  apply split_spec in Hs as (_ & _ & Hle & Hv1 & Hs1 & Hh1 & Hc1).
  destruct (merge_ok condition collateral_asset a P payer L1 Hv) as [L2 Hm].
  - intros j Hj. rewrite Hc1, Hs1.
    rewrite decide_True by auto. rewrite decide_True by assumption.
    pose proof (ledger_wf_claim L payer j Hwf) as [? _].
    pose proof (ledger_wf_supply L j Hwf) as [? _]. lia.
  - rewrite Hv1, decide_True by reflexivity.
    pose proof (ledger_wf_vault L collateral_asset Hwf) as [? _]. lia.
  - rewrite Hh1, decide_True by auto.
    pose proof (ledger_wf_holding L payer collateral_asset Hwf) as [_ ?]. lia.
  - exists L2. split; [exact Hm|].
    apply merge_spec in Hm as (_ & Hv2 & Hs2 & Hh2 & Hc2).
    repeat split.
    + intros k. rewrite Hv2, Hv1. destruct (decide _); lia.
    + intros i. rewrite Hs2, Hs1. destruct (decide _); lia.
    + intros w k. rewrite Hh2, Hh1. destruct (decide _); lia.
    + intros w i. rewrite Hc2, Hc1. destruct (decide _); lia.
Qed.

Lemma split_merge_inverse_witness :
  exists L1 L2,
    split (mkCondition 7 [] 2 false [] []) 9 40 [1; 2] 1
      (mkLedger ∅ ∅ {[ (1, 9) := 100 ]} ∅) = Ok L1
    /\ merge (mkCondition 7 [] 2 false [] []) 9 40 [1; 2] 1 L1 = Ok L2
    /\ (forall k, vault_balance L2 k
                  = vault_balance (mkLedger ∅ ∅ {[ (1, 9) := 100 ]} ∅) k)
    /\ (forall i, supply L2 i
                  = supply (mkLedger ∅ ∅ {[ (1, 9) := 100 ]} ∅) i)
    /\ (forall w k, holding L2 w k
                    = holding (mkLedger ∅ ∅ {[ (1, 9) := 100 ]} ∅) w k)
    /\ (forall w i, claim L2 w i
                    = claim (mkLedger ∅ ∅ {[ (1, 9) := 100 ]} ∅) w i).
Proof.
  destruct (split (mkCondition 7 [] 2 false [] []) 9 40 [1; 2] 1
              (mkLedger ∅ ∅ {[ (1, 9) := 100 ]} ∅)) as [L1| |] eqn:E;
    [|vm_compute in E; discriminate E..].
  destruct (split_merge_inverse (mkCondition 7 [] 2 false [] []) 9 40 [1; 2] 1
              (mkLedger ∅ ∅ {[ (1, 9) := 100 ]} ∅) L1) as (L2 & H).
  - unfold ledger_wf. cbn.
    split; [apply map_Forall_empty|]. split; [apply map_Forall_empty|].
    split; [|apply map_Forall_empty].
    apply map_Forall_singleton. unfold u64, u64_MAX. lia.
  - reflexivity.
  - lia.
  - exact E.
  - exists L1, L2. split; [reflexivity | exact H].
Defined.

(** ** Conservation *)




Lemma fold_left_supply_sum L (l : list Z) (a : Z) :
  fold_left
    (fun acc m =>
       match supplies L !! m with
       | Some supply => acc + supply
       | None => acc
       end) l a
  = a + list_sum_Z (map (supply L) l).
Proof.
  revert a. induction l as [|x l IH]; intros a; cbn [fold_left map].
  - cbn. lia.
  - rewrite IH.
    change (list_sum_Z (supply L x :: map (supply L) l))
      with (supply L x + list_sum_Z (map (supply L) l)).
    assert (Hx : supply L x = default 0 (supplies L !! x)) by reflexivity.
    destruct (supplies L !! x); cbn in Hx; cbv beta iota; lia.
Qed.

Lemma getVaultBalance_Some L asset v :
  getVaultBalance L asset = Some v -> vault_balance L asset = v.
Proof.
  unfold getVaultBalance, vault_balance. intros ->. reflexivity.
Qed.










Example split_once_balances :
  let L := run_ops (mkCondition 7 [] 2 false [] []) [OpSplit 9 100 [1; 2] 1]
             (mkLedger ∅ ∅ {[ (1, 9) := 100 ]} ∅) in
  vault_balance L 9 = 100 /\ supply L 0 = 100 /\ supply L 1 = 100
  /\ total_supply L 2 = 200 /\ holding L 1 9 = 0
  /\ claim L 1 0 = 100 /\ claim L 1 1 = 100
  /\ verifyCTFInvariant L 9 [0; 1] = Some (mkInvariantReport true 100 200)
  /\ verifyCTFInvariant (mkLedger ∅ ∅ {[ (1, 9) := 100 ]} ∅) 9 [0; 1] = None.
Proof. vm_compute. repeat split. Qed.

(** ** The helper against the specification's validator

    Up to 30 outcome slots, and on partitions without an empty or negative
    index set, [validatePartition] decides as the validator of the
    specification does. *)

Lemma lor_pow2_bound a b n :
  0 <= n -> 0 <= a < 2 ^ n -> 0 <= b < 2 ^ n -> 0 <= Z.lor a b < 2 ^ n.
Proof.
  intros Hn Ha Hb. split; [apply Z.lor_nonneg; lia|].
  assert (Hp : 0 < 2 ^ n) by (apply Z.pow_pos_nonneg; lia).
  assert (Hs : Z.shiftr (Z.lor a b) n = 0).
  { rewrite Z.shiftr_lor, !Z.shiftr_div_pow2 by lia.
    rewrite !Z.div_small by lia. reflexivity. }
  rewrite Z.shiftr_div_pow2 in Hs by lia.
  apply Z.div_small_iff in Hs; lia.
Qed.

Lemma validatePartition_loop_refines p n u :
  0 <= n <= 30 ->
  0 <= u < 2 ^ n ->
  Forall (fun s => 0 < s) p ->
  validatePartition_loop p (2 ^ n - 1) u =
  match validate_loop p (2 ^ n - 1) u with
  | Some u' => u' =? 2 ^ n - 1
  | None => false
  end.
Proof.
  intros Hn Hu Hp. revert u Hu.
  assert (Hpow : 0 < 2 ^ n <= 2 ^ 30).
  { split; [apply Z.pow_pos_nonneg; lia | apply Z.pow_le_mono_r; lia]. }
  induction Hp as [|s p Hs Hp IH]; intros u Hu;
    cbn [validatePartition_loop validate_loop]; [reflexivity|].
  destruct (s =? 0) eqn:E0; [lia|].
  destruct (s >? 2 ^ n - 1) eqn:Eg.
  - destruct (negb (JS.band u s =? 0)), (negb (Z.land u s =? 0)); reflexivity.
  - assert (Hb : JS.band u s = Z.land u s).
    { unfold JS.band. rewrite !ToInt32_id by (unfold int32; lia). reflexivity. }
    assert (Ho : JS.bor u s = Z.lor u s).
    { unfold JS.bor. rewrite !ToInt32_id by (unfold int32; lia). reflexivity. }
    rewrite Hb, Ho. destruct (negb (Z.land u s =? 0)); [reflexivity|].
    apply IH. apply lor_pow2_bound; lia.
Qed.

Theorem validatePartition_refines_validate (p : list Z) (n : Z) :
  0 <= n <= 30 ->
  Forall (fun s => 0 < s) p ->
  validatePartition p n = validate p n.
Proof.
  intros Hn Hp. rewrite validatePartition_length. unfold validate, fullIndexSet.
  cbv zeta. rewrite shl_1_small, Z.shiftl_1_l by lia.
  assert (Hpow : 0 < 2 ^ n) by (apply Z.pow_pos_nonneg; lia).
  rewrite validatePartition_loop_refines by (assumption || lia).
  destruct (validate_loop p (2 ^ n - 1) 0) as [u|].
  - apply andb_comm.
  - apply andb_false_r.
Qed.

Lemma validatePartition_loop_nonempty_sets p n u :
  0 <= n <= 30 ->
  0 <= u < 2 ^ n ->
  Forall (fun s => 0 <= s) p ->
  validatePartition_loop p (2 ^ n - 1) u =
  match validate_loop (List.filter (fun s => negb (s =? 0)) p)
          (2 ^ n - 1) u with
  | Some u' => u' =? 2 ^ n - 1
  | None => false
  end.
Proof.
  intros Hn Hu Hp. revert u Hu.
  assert (Hpow : 0 < 2 ^ n <= 2 ^ 30).
  { split; [apply Z.pow_pos_nonneg; lia | apply Z.pow_le_mono_r; lia]. }
  induction Hp as [|s p Hs Hp IH]; intros u Hu;
    cbn [validatePartition_loop List.filter]; [reflexivity|].
  assert (Hb : JS.band u s = Z.land u s \/ 2 ^ n - 1 < s).
  { destruct (Z_le_gt_dec s (2 ^ n - 1)); [left | right; lia].
    unfold JS.band. rewrite !ToInt32_id by (unfold int32; lia). reflexivity. }
  assert (Ho : JS.bor u s = Z.lor u s \/ 2 ^ n - 1 < s).
  { destruct (Z_le_gt_dec s (2 ^ n - 1)); [left | right; lia].
    unfold JS.bor. rewrite !ToInt32_id by (unfold int32; lia). reflexivity. }
  destruct (s =? 0) eqn:E0; cbn [negb].
  - apply Z.eqb_eq in E0. subst s.
    destruct Hb as [Hb|]; [|lia]. destruct Ho as [Ho|]; [|lia].
    rewrite Hb, Ho, Z.land_0_r, Z.lor_0_r. cbn [Z.eqb negb].
    destruct (0 >? 2 ^ n - 1) eqn:Eg; [lia|]. apply IH. exact Hu.
  - cbn [validate_loop]. rewrite E0.
    destruct (s >? 2 ^ n - 1) eqn:Eg.
    + destruct (negb (JS.band u s =? 0)), (negb (Z.land u s =? 0));
        reflexivity.
    + destruct Hb as [Hb|]; [|lia]. destruct Ho as [Ho|]; [|lia].
      rewrite Hb, Ho. destruct (negb (Z.land u s =? 0)); [reflexivity|].
      apply IH. apply lor_pow2_bound; lia.
Qed.

(** C4, as amended. Up to 30 outcome slots and on non-negative index
    sets, [validatePartition] accepts a partition exactly when it has at
    least two entries and its non-empty index sets pass the per-set
    checks of the specification (not empty, no overlap with the running
    union, not above the full mask [2^n - 1]) with the running union
    ending equal to the full mask; on partitions without an empty index
    set it therefore decides exactly as the validator of the
    specification. Over 2 slots [[0b01, 0b10]] is valid and [[0b11]],
    [[0b01, 0b01]], [[0b11, 0b01]], [[0b01]] and [[]] are invalid. *)
Theorem validatePartition_accepts_iff :
  (forall (p : list Z) (outcomeCount : Z),
      0 <= outcomeCount <= 30 ->
      Forall (fun s => 0 <= s) p ->
      validatePartition p outcomeCount = true <->
      validate_loop (List.filter (fun s => negb (s =? 0)) p)
        (Z.shiftl 1 outcomeCount - 1) 0
      = Some (Z.shiftl 1 outcomeCount - 1)
      /\ (2 <= length p)%nat)
  /\ (forall (p : list Z) (outcomeCount : Z),
        0 <= outcomeCount <= 30 ->
        Forall (fun s => 0 < s) p ->
        validatePartition p outcomeCount = validate p outcomeCount)
  /\ validatePartition [1; 2] 2 = true
  /\ validatePartition [3] 2 = false
  /\ validatePartition [1; 1] 2 = false
  /\ validatePartition [3; 1] 2 = false
  /\ validatePartition [1] 2 = false
  /\ validatePartition [] 2 = false.
Proof.
  split; [|split; [|repeat split; reflexivity]].
  - intros p n Hn Hp.
    assert (Hpow : 0 < 2 ^ n) by (apply Z.pow_pos_nonneg; lia).
    rewrite validatePartition_length, andb_true_iff, Nat.leb_le.
    unfold fullIndexSet. rewrite shl_1_small, Z.shiftl_1_l by lia.
    rewrite validatePartition_loop_nonempty_sets by (assumption || lia).
    destruct (validate_loop _ (2 ^ n - 1) 0) as [u|].
    + rewrite Z.eqb_eq. split; intros [H1 H2]; split;
        first [assumption | congruence].
    + split; intros [H1 H2]; discriminate.
  - intros p n Hn Hp. apply validatePartition_refines_validate; assumption.
Qed.

Lemma validatePartition_accepts_iff_witness :
  validatePartition [0; 5; 2] 3 = true <->
  validate_loop (List.filter (fun s => negb (s =? 0)) [0; 5; 2])
    (Z.shiftl 1 3 - 1) 0
  = Some (Z.shiftl 1 3 - 1)
  /\ (2 <= length [0; 5; 2])%nat.
Proof.
  apply (proj1 validatePartition_accepts_iff [0; 5; 2] 3).
  - lia.
  - repeat constructor; lia.
Defined.

(** C4, counterexample. Against the validator of the specification, with
    its test for an empty index set and its unbounded mask,
    [validatePartition] decides differently: [[0, 0b11]] over 2 slots is
    accepted by the helper and rejected by the specification for its
    empty set, and [[0xFFFF, 0xFFFF0000]] over 32 slots is rejected by the
    helper, whose mask has overflowed to 0, and accepted by the
    specification. *)
Lemma validatePartition_differs_from_spec :
  ~ (forall (p : list Z) (outcomeCount : Z),
        validatePartition p outcomeCount = validate p outcomeCount)
  /\ validatePartition [0; 3] 2 = true
  /\ validate [0; 3] 2 = false
  /\ validatePartition [65535; 4294901760] 32 = false
  /\ validate [65535; 4294901760] 32 = true.
Proof.
  split; [|repeat split; vm_compute; reflexivity].
  intros H. specialize (H [0; 3] 2). vm_compute in H. discriminate H.
Qed.

(** A partition the specification's validator accepts covers every
    outcome slot exactly once. *)
Theorem validate_partitions_slots (p : list Z) (n : Z) :
  0 <= n ->
  validate p n = true ->
  NoDup (covered p) /\ forall i, i ∈ covered p <-> 0 <= i < n.
Proof.
  intros Hn Hv. split.
  - eapply validate_NoDup; eassumption.
  - apply validate_covered; assumption.
Qed.

(** Up to 30 slots the helper's full partition is valid. *)
Lemma fullPartition_valid n :
  2 <= n <= 30 -> validatePartition (fullPartition n) n = true.
Proof.
  intros Hn.
  assert (H : forallb (fun n => validatePartition (fullPartition n) n)
                (seqZ 2 29) = true) by (vm_compute; reflexivity).
  rewrite forallb_forall in H. apply H.
  apply list_elem_of_In, elem_of_seqZ. lia.
Qed.

Lemma binaryPartition_valid : validatePartition binaryPartition 2 = true.
Proof. reflexivity. Qed.

(** An empty index set lets the one-block partition through. *)
Example validatePartition_padded_trivial :
  validatePartition [0; 3] 2 = true /\ validatePartition [3] 2 = false.
Proof. split; reflexivity. Qed.

Lemma outcomesToIndexSet_singleton i :
  0 <= i < 31 -> outcomesToIndexSet [i] = outcomeToIndexSet i.
Proof.
  intros Hi. unfold outcomesToIndexSet, outcomeToIndexSet. cbn [fold_left].
  unfold JS.bor. change (JS.ToInt32 0) with 0. rewrite Z.lor_0_l.
  apply ToInt32_id. rewrite shl_1_small by lia. unfold int32.
  assert (0 < 2 ^ i <= 2 ^ 30).
  { split; [apply Z.pow_pos_nonneg; lia | apply Z.pow_le_mono_r; lia]. }
  lia.
Qed.

(** ** [validate_partition] of the guide *)

(** The excerpt has no test for an empty index set either. *)
Lemma validate_partition_zero_accepted :
  validate_partition [0; 1; 2] 2 = Ok true.
Proof. reflexivity. Qed.

Lemma validate_partition_loop_bound p full u :
  0 <= u < 2 ^ 8 ->
  Forall (fun s => 0 <= s < 2 ^ 8) p ->
  validate_partition_loop p full u = true ->
  0 <= full < 2 ^ 8.
Proof.
  intros Hu Hp. revert u Hu.
  induction Hp as [|s p Hs Hp IH]; intros u Hu; cbn [validate_partition_loop].
  - intros H. apply Z.eqb_eq in H. lia.
  - destruct (negb _); [discriminate|].
    destruct (s >? full); [discriminate|].
    apply IH. apply lor_pow2_bound; lia.
Qed.

(** With [u8] index sets the excerpt cannot accept a partition of more
    than 8 outcome slots, and from 64 slots on the mask itself overflows. *)
Lemma validate_partition_u8_limit p n :
  0 <= n ->
  Forall (fun s => 0 <= s < 2 ^ 8) p ->
  validate_partition p n = Ok true ->
  n <= 8.
Proof.
  intros Hn Hp. unfold validate_partition.
  destruct (_ || _); [discriminate|].
  destruct (64 <=? n) eqn:E64; [discriminate|].
  intros H. inversion H as [Hl]; clear H.
  apply validate_partition_loop_bound in Hl; [|lia|assumption].
  rewrite Z.shiftl_1_l in Hl.
  destruct (Z_le_gt_dec n 8) as [|Hgt]; [assumption|].
  assert (2 ^ 9 <= 2 ^ n) by (apply Z.pow_le_mono_r; lia). lia.
Qed.

Lemma validate_partition_shift_overflow p n :
  (2 <= length p)%nat -> 64 <= n -> validate_partition p n = Panicked.
Proof.
  intros Hl Hn. unfold validate_partition.
  destruct p as [|a [|b p]]; cbn in Hl; try lia. cbn [length Nat.eqb orb].
  destruct (64 <=? n) eqn:E; [reflexivity | lia].
Qed.

(** ** Resolution, continued *)

(** What [report_payout] does on every input. *)
Lemma report_payout_cases signer c nums :
  (signer = oracle c /\
   report_payout signer c nums =
   Ok (mkCondition (oracle c) (question_id c) (outcome_slot_count c) true
         nums (condition_id c)))
  \/ (signer <> oracle c /\
      report_payout signer c nums = Err UnauthorizedOracle).
Proof.
  destruct (Z.eq_dec signer (oracle c)) as [->|Hne].
  - left. split; [reflexivity | apply report_payout_by_oracle].
  - right. split; [assumption | apply report_payout_by_other; assumption].
Qed.

(** An all-zero vector, once stored, makes every payout computation
    panic on the division. *)
Lemma payoutFor_zero_vector index_set amount :
  u64 amount -> payoutFor [0; 0] index_set amount = Panicked.
Proof.
  intros [Ha Hb]. unfold payoutFor, sum_u64. cbn [sum_u64_from].
  cbn. unfold payout, checked_mul_u128, u128_MAX.
  destruct (_ <=? _); reflexivity.
Qed.

(** A vector whose sum leaves 64 bits makes the denominator panic. *)
Lemma payoutFor_sum_overflow nums index_set amount :
  Forall u64 nums -> u64_MAX < list_sum_Z nums ->
  payoutFor nums index_set amount = Panicked.
Proof.
  intros Hn Hs. unfold payoutFor, sum_u64.
  rewrite sum_u64_from_overflow; [reflexivity | | unfold u64_MAX; lia | lia].
  eapply List.Forall_impl; [|exact Hn]. intros x [Hx _]. exact Hx.
Qed.

(** ** The scenario of the tests

    A two-outcome condition; a user holding 200 units splits 100 twice
    under [[0b01, 0b10]], merges 50 back, the oracle reports [[0, 1]] and
    the user redeems the 150 claims on outcome 1: the vault ends empty,
    the user has recovered 150 units on top of the 50 merged, and the 150
    claims on outcome 0 remain. *)
Example end_to_end_scenario :
  let c := mkCondition 7 [] 2 false [] [] in
  let L := run_ops c
             [OpSplit 9 100 [1; 2] 1; OpSplit 9 100 [1; 2] 1;
              OpMerge 9 50 [1; 2] 1]
             (mkLedger ∅ ∅ {[ (1, 9) := 200 ]} ∅) in
  match report_payout 7 c [0; 1] with
  | Ok c' =>
      let r := redeem_positions c' 1 9 [2] 150 L in
      vault_balance L 9 = 150 /\ holding L 1 9 = 50
      /\ run_result r = Ok tt
      /\ run_trace r = [EvBurn 2 150; EvTransfer 150]
      /\ vault_balance (run_ledger r) 9 = 0
      /\ holding (run_ledger r) 1 9 = 200
      /\ claim (run_ledger r) 1 1 = 0
      /\ claim (run_ledger r) 1 0 = 150
      /\ supply (run_ledger r) 0 = 150
  | _ => False
  end.
Proof. vm_compute. repeat split. Qed.

(** The tests' rejected partitions, and redemption before resolution. *)
Example split_rejects_invalid_partitions :
  let c := mkCondition 7 [] 2 false [] [] in
  let L := mkLedger ∅ ∅ {[ (1, 9) := 200 ]} ∅ in
  split c 9 1000000 [3; 1] 1 L = Err InvalidPartition
  /\ split c 9 1000000 [3] 1 L = Err InvalidPartition
  /\ run_result (redeem_positions c 1 9 [2] 10 L) = Err ConditionNotResolved.
Proof. vm_compute. repeat split. Qed.

(** * Further properties of the code *)

(** ** [validatePartition]: the slot count *)

Lemma land_31_mod z : Z.land (JS.ToUint32 z) 31 = z mod 32.
Proof.
  unfold JS.ToUint32.
  change (Z.land (z mod 2 ^ 32) 31) with (Z.land (z mod 2 ^ 32) (Z.ones 5)).
  rewrite Z.land_ones by lia. change (2 ^ 5) with 32.
  apply Z.mod_mod_divide. exists (2 ^ 27). reflexivity.
Qed.

Lemma shl_1_wrap n : JS.shl 1 (n + 32) = JS.shl 1 n.
Proof.
  unfold JS.shl. rewrite !land_31_mod. f_equal. f_equal.
  replace (n + 32) with (n + 1 * 32) by lia. apply Z_mod_plus_full.
Qed.

(** X1. The slot count enters [validatePartition] only through the shift
    [1 << outcomeCount], whose count is taken modulo 32: adding 32 to the
    slot count never changes the verdict. *)
Theorem validatePartition_slot_count_wraps (p : list Z) (outcomeCount : Z) :
  validatePartition p (outcomeCount + 32) = validatePartition p outcomeCount.
Proof.
  unfold validatePartition, fullIndexSet. rewrite shl_1_wrap. reflexivity.
Qed.

Lemma fullIndexSet_31 n : n mod 32 = 31 -> fullIndexSet n = - 2 ^ 31 - 1.
Proof.
  intros Hn. unfold fullIndexSet, JS.shl. rewrite land_31_mod, Hn.
  reflexivity.
Qed.

(** X2. When the slot count is 31 modulo 32 the mask is [-2^31 - 1], below
    every 32-bit union: [validatePartition] rejects every partition. *)
Theorem validatePartition_rejects_all_at_31 (p : list Z) (outcomeCount : Z) :
  outcomeCount mod 32 = 31 -> validatePartition p outcomeCount = false.
Proof.
  intros Hn. rewrite validatePartition_length, (fullIndexSet_31 _ Hn).
  rewrite validatePartition_loop_neg_mask by apply int32_0.
  apply andb_false_r.
Qed.

Lemma validatePartition_rejects_all_at_31_witness :
  validatePartition [1; 2] 63 = false.
Proof.
  apply (validatePartition_rejects_all_at_31 [1; 2] 63). reflexivity.
Defined.

(** ** [validatePartition] up to 30 slots *)

(** On non-negative index sets and a running union below [2^n], with
    [n <= 30], the loop of the helper and the loop of the guide's
    [validate_partition] take the same steps. *)
Lemma validatePartition_loop_pure p n u :
  0 <= n <= 30 ->
  0 <= u < 2 ^ n ->
  Forall (fun s => 0 <= s) p ->
  validatePartition_loop p (2 ^ n - 1) u =
  validate_partition_loop p (2 ^ n - 1) u.
Proof.
  intros Hn Hu Hp. revert u Hu.
  assert (Hpow : 0 < 2 ^ n <= 2 ^ 30).
  { split; [apply Z.pow_pos_nonneg; lia | apply Z.pow_le_mono_r; lia]. }
  induction Hp as [|s p Hs Hp IH]; intros u Hu;
    cbn [validatePartition_loop validate_partition_loop]; [reflexivity|].
  destruct (s >? 2 ^ n - 1) eqn:Eg.
  - destruct (negb (JS.band u s =? 0)), (negb (Z.land u s =? 0)); reflexivity.
  - assert (Hb : JS.band u s = Z.land u s).
    { unfold JS.band. rewrite !ToInt32_id by (unfold int32; lia). reflexivity. }
    assert (Ho : JS.bor u s = Z.lor u s).
    { unfold JS.bor. rewrite !ToInt32_id by (unfold int32; lia). reflexivity. }
    rewrite Hb, Ho. destruct (negb (Z.land u s =? 0)); [reflexivity|].
    apply IH. apply lor_pow2_bound; lia.
Qed.

Lemma set_bits_elem_iff s i :
  0 <= s -> i ∈ set_bits s <-> 0 <= i /\ Z.testbit s i = true.
Proof. intros Hs. rewrite list_elem_of_In. apply set_bits_In. exact Hs. Qed.

Lemma bits_below_bound s n :
  0 <= n -> 0 <= s ->
  (forall i, 0 <= i -> Z.testbit s i = true -> i < n) ->
  s < 2 ^ n.
Proof.
  intros Hn Hs H. destruct (Z.eq_dec s 0) as [->|Hne].
  - apply Z.pow_pos_nonneg; lia.
  - apply Z.log2_lt_pow2; [lia|].
    apply H; [apply Z.log2_nonneg | apply Z.bit_log2; lia].
Qed.

Lemma pure_loop_accepts_iff p n u :
  0 <= n -> 0 <= u ->
  Forall (fun s => 0 <= s) p ->
  validate_partition_loop p (2 ^ n - 1) u = true <->
  NoDup (covered p)
  /\ (forall i, i ∈ covered p -> Z.testbit u i = false)
  /\ (forall i, 0 <= i ->
        Z.testbit u i || bool_decide (i ∈ covered p) = (i <? n)).
Proof.
  intros Hn Hu Hp. revert u Hu.
  assert (Hones : 2 ^ n - 1 = Z.ones n) by (rewrite Z.ones_equiv; lia).
  induction Hp as [|s p Hs Hp IH]; intros u Hu;
    cbn [validate_partition_loop].
  - rewrite Z.eqb_eq. split.
    + intros ->. split; [constructor|]. split; [intros i Hi; inversion Hi|].
      intros i Hi. rewrite Hones, Z.testbit_ones_nonneg by lia.
      rewrite bool_decide_eq_false_2 by (intros Hi'; inversion Hi').
      apply orb_false_r.
    + intros (_ & _ & Hb). rewrite Hones. apply Z.bits_inj'. intros i Hi.
      specialize (Hb i Hi).
      rewrite bool_decide_eq_false_2, orb_false_r in Hb
        by (intros Hi'; inversion Hi').
      rewrite Hb, Z.testbit_ones_nonneg by lia. reflexivity.
  - rewrite covered_cons.
    assert (Hlor : 0 <= Z.lor u s) by (apply Z.lor_nonneg; lia).
    split.
    + destruct (Z.land u s =? 0) eqn:El; [|discriminate]. cbn [negb].
      destruct (s >? 2 ^ n - 1) eqn:Eg; [discriminate|].
      intros H. apply (IH _ Hlor) in H as (Hnd & Hfree & Hbits).
      apply Z.eqb_eq in El.
      split; [|split].
      * apply NoDup_app. split; [|split; [|exact Hnd]].
        -- apply StronglySorted_lt_NoDup, set_bits_sorted.
        -- intros i Hi Hi'. apply set_bits_elem in Hi as (_ & _ & Hb).
           specialize (Hfree i Hi').
           rewrite Z.lor_spec, Hb, orb_true_r in Hfree. discriminate.
      * intros i Hi. apply elem_of_app in Hi as [Hi|Hi].
        -- apply set_bits_elem in Hi as (_ & _ & Hb).
           assert (Hl : Z.testbit (Z.land u s) i = false)
             by (rewrite El; apply Z.bits_0).
           rewrite Z.land_spec, Hb, andb_true_r in Hl. exact Hl.
        -- specialize (Hfree i Hi). rewrite Z.lor_spec in Hfree.
           apply orb_false_iff in Hfree. tauto.
      * intros i Hi. rewrite <- (Hbits i Hi), Z.lor_spec, <- orb_assoc.
        f_equal. destruct (Z.testbit s i) eqn:Eb; cbn.
        -- apply bool_decide_eq_true_2, elem_of_app. left.
           apply set_bits_elem_iff; auto.
        -- apply bool_decide_ext. rewrite elem_of_app. split; [|auto].
           intros [Hin|Hin]; [|assumption].
           apply set_bits_elem in Hin as (_ & _ & Hb). congruence.
    + intros (Hnd & Hfree & Hbits).
      apply NoDup_app in Hnd as (_ & Hdisj & Hnd).
      assert (El : Z.land u s = 0).
      { apply Z.bits_inj'. intros i Hi. rewrite Z.land_spec, Z.bits_0.
        destruct (Z.testbit s i) eqn:Eb; [|apply andb_false_r].
        rewrite Hfree; [reflexivity|].
        apply elem_of_app. left. apply set_bits_elem_iff; auto. }
      rewrite El. cbn [Z.eqb negb].
      assert (Hsn : s < 2 ^ n).
      { apply bits_below_bound; [lia | lia |]. intros i Hi Hb.
        specialize (Hbits i Hi).
        rewrite (bool_decide_eq_true_2 (i ∈ set_bits s ++ covered p)) in Hbits
          by (apply elem_of_app; left; apply set_bits_elem_iff; auto).
        rewrite orb_true_r in Hbits. symmetry in Hbits.
        apply Z.ltb_lt in Hbits. exact Hbits. }
      destruct (s >? 2 ^ n - 1) eqn:Eg; [lia|].
      apply (IH _ Hlor). split; [exact Hnd|]. split.
      * intros i Hi. rewrite Z.lor_spec. apply orb_false_iff. split.
        -- apply Hfree, elem_of_app. auto.
        -- destruct (Z.testbit s i) eqn:Eb; [|reflexivity].
           exfalso. apply (Hdisj i); [|exact Hi].
           apply set_bits_elem_iff; [lia|]. split; [|exact Eb].
           eapply covered_nonneg; eassumption.
      * intros i Hi. rewrite <- (Hbits i Hi), Z.lor_spec, <- orb_assoc.
        f_equal. destruct (Z.testbit s i) eqn:Eb; cbn.
        -- symmetry. apply bool_decide_eq_true_2, elem_of_app. left.
           apply set_bits_elem_iff; auto.
        -- apply bool_decide_ext. rewrite elem_of_app. split; [auto|].
           intros [Hin|Hin]; [|assumption].
           apply set_bits_elem in Hin as (_ & _ & Hb). congruence.
Qed.

Lemma fullIndexSet_small n : 0 <= n <= 30 -> fullIndexSet n = 2 ^ n - 1.
Proof. intros Hn. unfold fullIndexSet. rewrite shl_1_small by lia. reflexivity. Qed.

Lemma pure_loop_covers_iff p n :
  0 <= n ->
  Forall (fun s => 0 <= s) p ->
  validate_partition_loop p (2 ^ n - 1) 0 = true <->
  NoDup (covered p) /\ (forall i, i ∈ covered p <-> 0 <= i < n).
Proof.
  intros Hn Hp.
  rewrite pure_loop_accepts_iff by (assumption || lia).
  split.
  - intros (Hnd & _ & Hbits). split; [exact Hnd|].
    intros i. split.
    + intros Hi. pose proof (covered_nonneg _ _ Hi) as Hi0.
      specialize (Hbits i Hi0).
      rewrite Z.bits_0, bool_decide_eq_true_2 in Hbits by assumption.
      cbn in Hbits. symmetry in Hbits. apply Z.ltb_lt in Hbits. lia.
    + intros [Hi0 Hin]. specialize (Hbits i Hi0). rewrite Z.bits_0 in Hbits.
      cbn in Hbits. assert (Hlt : (i <? n) = true)
        by (apply Z.ltb_lt; lia).
      rewrite Hlt in Hbits. apply bool_decide_eq_true_1 in Hbits. exact Hbits.
  - intros (Hnd & Hcov). split; [exact Hnd|]. split.
    + intros i _. apply Z.bits_0.
    + intros i Hi. rewrite Z.bits_0. cbn.
      destruct (i <? n) eqn:E.
      * apply bool_decide_eq_true_2, Hcov. apply Z.ltb_lt in E. lia.
      * apply bool_decide_eq_false_2. intros Hin. apply Hcov in Hin.
        apply Z.ltb_ge in E. lia.
Qed.

Lemma validatePartition_pure p n :
  0 <= n <= 30 ->
  Forall (fun s => 0 <= s) p ->
  validatePartition p n =
  (2 <=? length p)%nat && validate_partition_loop p (2 ^ n - 1) 0.
Proof.
  intros Hn Hp.
  assert (Hpow : 0 < 2 ^ n) by (apply Z.pow_pos_nonneg; lia).
  rewrite validatePartition_length, fullIndexSet_small by assumption.
  rewrite validatePartition_loop_pure by (assumption || lia).
  reflexivity.
Qed.

(** X3. Up to 30 outcome slots and on non-negative index sets,
    [validatePartition] accepts a partition exactly when it has at least
    two entries, no outcome slot is covered by two of them, and the
    covered slots are exactly the slots [0 .. outcomeCount - 1]. *)
Theorem validatePartition_sound_complete (p : list Z) (outcomeCount : Z) :
  0 <= outcomeCount <= 30 ->
  Forall (fun s => 0 <= s) p ->
  validatePartition p outcomeCount = true <->
  (2 <= length p)%nat
  /\ NoDup (covered p)
  /\ (forall i, i ∈ covered p <-> 0 <= i < outcomeCount).
Proof.
  intros Hn Hp.
  rewrite validatePartition_pure, andb_true_iff, Nat.leb_le by assumption.
  rewrite pure_loop_covers_iff by (assumption || lia).
  reflexivity.
Qed.

Lemma validatePartition_sound_complete_witness :
  validatePartition [5; 2] 3 = true <->
  (2 <= length [5; 2])%nat
  /\ NoDup (covered [5; 2])
  /\ (forall i, i ∈ covered [5; 2] <-> 0 <= i < 3).
Proof.
  apply (validatePartition_sound_complete [5; 2] 3).
  - lia.
  - repeat constructor; lia.
Defined.

(** X4. Up to 30 outcome slots and on non-negative index sets, the verdict
    of [validatePartition] does not depend on the order of the index
    sets. *)
Theorem validatePartition_order_independent
    (p q : list Z) (outcomeCount : Z) :
  0 <= outcomeCount <= 30 ->
  Forall (fun s => 0 <= s) p ->
  p ≡ₚ q ->
  validatePartition p outcomeCount = validatePartition q outcomeCount.
Proof.
  intros Hn Hp Hpq.
  assert (Hq : Forall (fun s => 0 <= s) q) by (rewrite <- Hpq; exact Hp).
  assert (Hc : covered p ≡ₚ covered q).
  { unfold covered. apply Permutation_flat_map. exact Hpq. }
  apply eq_true_iff_eq.
  rewrite !validatePartition_pure, !andb_true_iff, !Nat.leb_le by assumption.
  rewrite !pure_loop_covers_iff by (assumption || lia).
  rewrite (Permutation_length Hpq).
  split; intros (Hl & Hnd & Hcov); (split; [exact Hl|]; split).
  - rewrite <- Hc. exact Hnd.
  - intros i. rewrite <- Hc. apply Hcov.
  - rewrite Hc. exact Hnd.
  - intros i. rewrite Hc. apply Hcov.
Qed.

Lemma validatePartition_order_independent_witness :
  validatePartition [1; 2; 4] 3 = validatePartition [4; 1; 2] 3.
Proof.
  apply (validatePartition_order_independent [1; 2; 4] [4; 1; 2] 3).
  - lia.
  - repeat constructor; lia.
  - change [4; 1; 2] with ([4] ++ [1; 2]).
    change [1; 2; 4] with ([1; 2] ++ [4]). apply Permutation_app_comm.
Defined.

Lemma pure_loop_sum p full u :
  0 <= u ->
  Forall (fun s => 0 <= s) p ->
  validate_partition_loop p full u = true ->
  u + list_sum_Z p = full.
Proof.
  intros Hu Hp. revert u Hu.
  induction Hp as [|s p Hs Hp IH]; intros u Hu; cbn [validate_partition_loop].
  - intros H. apply Z.eqb_eq in H. cbn. lia.
  - destruct (Z.land u s =? 0) eqn:El; [|discriminate]. cbn [negb].
    destruct (s >? full); [discriminate|].
    intros H. apply Z.eqb_eq in El.
    apply IH in H; [|apply Z.lor_nonneg; lia].
    rewrite <- (Z.lxor_lor u s El), <- (Z.add_nocarry_lxor u s El) in H.
    change (list_sum_Z (s :: p)) with (s + list_sum_Z p). lia.
Qed.

(** X5. Up to 30 outcome slots, the non-negative index sets of a
    partition that [validatePartition] accepts add up to the full mask
    [2^outcomeCount - 1]. *)
Theorem validatePartition_accepted_sum (p : list Z) (outcomeCount : Z) :
  0 <= outcomeCount <= 30 ->
  Forall (fun s => 0 <= s) p ->
  validatePartition p outcomeCount = true ->
  list_sum_Z p = 2 ^ outcomeCount - 1.
Proof.
  intros Hn Hp Hv.
  assert (Hpow : 0 < 2 ^ outcomeCount) by (apply Z.pow_pos_nonneg; lia).
  rewrite validatePartition_length in Hv. apply andb_true_iff in Hv as [_ Hv].
  rewrite fullIndexSet_small in Hv by assumption.
  rewrite validatePartition_loop_pure in Hv by (assumption || lia).
  apply pure_loop_sum in Hv; [lia | lia | assumption].
Qed.

Lemma validatePartition_accepted_sum_witness : list_sum_Z [5; 2] = 2 ^ 3 - 1.
Proof.
  apply (validatePartition_accepted_sum [5; 2] 3).
  - lia.
  - repeat constructor; lia.
  - reflexivity.
Defined.

Lemma pos_bits_nonempty q k : (1 <= length (pos_bits q k))%nat.
Proof.
  revert k. induction q as [q IH|q IH|]; intros k; cbn [pos_bits length].
  - lia.
  - apply IH.
  - lia.
Qed.

Lemma covered_length_ge p :
  Forall (fun s => 0 < s) p -> (length p <= length (covered p))%nat.
Proof.
  induction 1 as [|s p Hs Hp IH]; [reflexivity|].
  rewrite covered_cons, length_app. cbn [length].
  assert (1 <= length (set_bits s))%nat; [|lia].
  destruct s as [|q|q]; try lia. cbn [set_bits].
  apply pos_bits_nonempty.
Qed.

(** X6. Up to 30 outcome slots, a partition of positive index sets that
    [validatePartition] accepts has between 2 and [outcomeCount] index
    sets. *)
Theorem validatePartition_accepted_length (p : list Z) (outcomeCount : Z) :
  0 <= outcomeCount <= 30 ->
  Forall (fun s => 0 < s) p ->
  validatePartition p outcomeCount = true ->
  2 <= Z.of_nat (length p) <= outcomeCount.
Proof.
  intros Hn Hp Hv.
  assert (Hp0 : Forall (fun s => 0 <= s) p).
  { eapply List.Forall_impl; [|exact Hp]. intros s Hs. cbn in Hs. lia. }
  rewrite validatePartition_pure, andb_true_iff, Nat.leb_le in Hv
    by assumption.
  rewrite pure_loop_covers_iff in Hv by (assumption || lia).
  destruct Hv as (Hl & Hnd & Hcov).
  split; [lia|].
  assert (Hperm : covered p ≡ₚ seqZ 0 outcomeCount).
  { apply NoDup_Permutation; [exact Hnd | apply NoDup_seqZ|].
    intros i. rewrite Hcov, elem_of_seqZ. lia. }
  pose proof (covered_length_ge p Hp) as Hle.
  rewrite (Permutation_length Hperm), length_seqZ in Hle. lia.
Qed.

Lemma validatePartition_accepted_length_witness :
  2 <= Z.of_nat (length [5; 2]) <= 3.
Proof.
  apply (validatePartition_accepted_length [5; 2] 3).
  - lia.
  - repeat constructor; lia.
  - reflexivity.
Defined.

(** ** [fullPartition] *)

Lemma fullPartition_length n : length (fullPartition n) = Z.to_nat n.
Proof. unfold fullPartition. rewrite length_map, length_seq. reflexivity. Qed.

Lemma shl_1_mod n : JS.shl 1 n = JS.shl 1 (n mod 32).
Proof.
  unfold JS.shl. rewrite !land_31_mod, Z.mod_mod by lia. reflexivity.
Qed.

Lemma land_ones_pow2 j : 0 <= j -> Z.land (2 ^ j - 1) (2 ^ j) = 0.
Proof.
  intros Hj. replace (2 ^ j - 1) with (Z.ones j) by (rewrite Z.ones_equiv; lia).
  rewrite Z.land_comm, Z.land_ones by lia. apply Z.mod_same.
  assert (0 < 2 ^ j) by (apply Z.pow_pos_nonneg; lia). lia.
Qed.

Lemma lor_ones_pow2 j : 0 <= j -> Z.lor (2 ^ j - 1) (2 ^ j) = 2 ^ (j + 1) - 1.
Proof.
  intros Hj. pose proof (land_ones_pow2 j Hj) as Hl.
  rewrite <- (Z.lxor_lor _ _ Hl), <- (Z.add_nocarry_lxor _ _ Hl).
  rewrite Z.pow_add_r by lia. lia.
Qed.

Lemma validatePartition_loop_singles (k j : nat) (r : Z) rest :
  Z.of_nat (j + k) <= r -> r <= 30 ->
  validatePartition_loop
    (map (fun i : nat => JS.shl 1 (Z.of_nat i)) (seq j k) ++ rest)
    (2 ^ r - 1) (2 ^ Z.of_nat j - 1)
  = validatePartition_loop rest (2 ^ r - 1) (2 ^ Z.of_nat (j + k) - 1).
Proof.
  revert j. induction k as [|k IH]; intros j Hjk Hr.
  - cbn [seq map app]. rewrite Nat.add_0_r. reflexivity.
  - cbn [seq map app validatePartition_loop].
    assert (Hj : 0 <= Z.of_nat j < r) by lia.
    assert (Hp : 0 < 2 ^ Z.of_nat j <= 2 ^ 30).
    { split; [apply Z.pow_pos_nonneg; lia | apply Z.pow_le_mono_r; lia]. }
    assert (Hlt : 2 ^ Z.of_nat j < 2 ^ r) by (apply Z.pow_lt_mono_r; lia).
    rewrite shl_1_small by lia.
    unfold JS.band, JS.bor. rewrite !ToInt32_id by (unfold int32; lia).
    rewrite land_ones_pow2, lor_ones_pow2 by lia. cbn [Z.eqb negb].
    destruct (2 ^ Z.of_nat j >? 2 ^ r - 1) eqn:E; [lia|].
    replace (Z.of_nat j + 1) with (Z.of_nat (S j)) by lia.
    rewrite IH by lia. do 3 f_equal. lia.
Qed.

Lemma fullPartition_rejected_large n :
  31 <= n -> validatePartition (fullPartition n) n = false.
Proof.
  intros Hn.
  pose proof (Z.mod_pos_bound n 32 ltac:(lia)) as Hr.
  destruct (Z.eq_dec (n mod 32) 31) as [E31|Hne];
    [rewrite validatePartition_length, (fullIndexSet_31 _ E31),
       validatePartition_loop_neg_mask by apply int32_0;
     apply andb_false_r|].
  rewrite validatePartition_length. apply andb_false_iff. right.
  unfold fullIndexSet. rewrite shl_1_mod, shl_1_small by lia.
  set (r := n mod 32) in *.
  unfold fullPartition.
  replace (Z.to_nat n) with (Z.to_nat r + S (Z.to_nat n - Z.to_nat r - 1))%nat
    by lia.
  rewrite seq_app, map_app. cbn [seq map Nat.add].
  match goal with
  | |- validatePartition_loop (_ ++ ?rest) _ _ = _ =>
      pose proof (validatePartition_loop_singles (Z.to_nat r) 0 r rest
                    ltac:(lia) ltac:(lia)) as Hs
  end.
  change (2 ^ Z.of_nat 0 - 1) with 0 in Hs. rewrite Hs. clear Hs.
  cbn [validatePartition_loop Nat.add].
  rewrite Z2Nat.id by lia.
  assert (Hp : 0 < 2 ^ r <= 2 ^ 30).
  { split; [apply Z.pow_pos_nonneg; lia | apply Z.pow_le_mono_r; lia]. }
  rewrite shl_1_small by lia.
  unfold JS.band. rewrite !ToInt32_id by (unfold int32; lia).
  rewrite land_ones_pow2 by lia. cbn [Z.eqb negb].
  destruct (2 ^ r >? 2 ^ r - 1) eqn:E; [reflexivity | lia].
Qed.

(** X7. [validatePartition] accepts the partition that [fullPartition]
    builds for a slot count exactly when the count lies between 2 and
    30. *)
Theorem fullPartition_valid_iff (outcomeCount : Z) :
  validatePartition (fullPartition outcomeCount) outcomeCount = true
  <-> 2 <= outcomeCount <= 30.
Proof.
  split; [|apply fullPartition_valid].
  intros Hv. destruct (Z_lt_le_dec outcomeCount 2) as [Hlt|Hge].
  - rewrite validatePartition_length in Hv.
    apply andb_true_iff in Hv as [Hl _]. apply Nat.leb_le in Hl.
    rewrite fullPartition_length in Hl. lia.
  - destruct (Z_le_gt_dec outcomeCount 30) as [Hle|Hgt]; [lia|].
    rewrite fullPartition_rejected_large in Hv by lia. discriminate.
Qed.

(** X8. [fullPartition] lists the powers of two: it has [outcomeCount]
    entries and, for a slot count up to 31, entry [i] is [2^i]. *)
Theorem fullPartition_entries (outcomeCount : Z) (i : nat) :
  0 <= outcomeCount <= 31 ->
  Z.of_nat i < outcomeCount ->
  length (fullPartition outcomeCount) = Z.to_nat outcomeCount
  /\ fullPartition outcomeCount !! i = Some (2 ^ Z.of_nat i).
Proof.
  intros Hn Hi. split; [apply fullPartition_length|].
  unfold fullPartition. rewrite list_lookup_fmap.
  rewrite lookup_seq_lt by lia. cbn. rewrite shl_1_small by lia. reflexivity.
Qed.

Lemma fullPartition_entries_witness :
  length (fullPartition 3) = Z.to_nat 3
  /\ fullPartition 3 !! 2%nat = Some (2 ^ Z.of_nat 2).
Proof. apply (fullPartition_entries 3 2); lia. Defined.

(** ** Outcome indices and index sets beyond 31 bits *)

(** X9. An outcome index enters an index set through [1 << idx], whose
    shift count is taken modulo 32: raising every index by 32 changes
    neither [outcomeToIndexSet] nor [outcomesToIndexSet]. *)
Theorem outcome_index_wraps (i : Z) (outcomeIndices : list Z) :
  outcomeToIndexSet (i + 32) = outcomeToIndexSet i
  /\ outcomesToIndexSet (map (fun idx => idx + 32) outcomeIndices)
     = outcomesToIndexSet outcomeIndices.
Proof.
  split; [apply shl_1_wrap|].
  unfold outcomesToIndexSet. generalize 0.
  induction outcomeIndices as [|idx l IH]; intros acc; cbn [map fold_left];
    [reflexivity|].
  rewrite shl_1_wrap. apply IH.
Qed.

Lemma shl_1_31 i : i mod 32 = 31 -> JS.shl 1 i = - 2 ^ 31.
Proof.
  intros Hi. unfold JS.shl. rewrite land_31_mod, Hi. reflexivity.
Qed.

(** X10. An outcome index that is 31 modulo 32 gives the negative index
    set [-2^31], and converting that index set back yields no outcome at
    all. *)
Theorem outcome_index_31_lost (i : Z) :
  i mod 32 = 31 ->
  outcomeToIndexSet i = - 2 ^ 31
  /\ indexSetToOutcomes (outcomeToIndexSet i) = [].
Proof.
  intros Hi. unfold outcomeToIndexSet. rewrite (shl_1_31 i Hi).
  split; [reflexivity|].
  unfold indexSetToOutcomes. apply indexSetToOutcomes_loop_nonpos. lia.
Qed.

Lemma outcome_index_31_lost_witness :
  outcomeToIndexSet 31 = - 2 ^ 31
  /\ indexSetToOutcomes (outcomeToIndexSet 31) = [].
Proof. apply (outcome_index_31_lost 31). reflexivity. Defined.

Lemma sar_1_ToInt32 s : JS.sar s 1 = JS.ToInt32 s / 2.
Proof.
  unfold JS.sar. change (Z.land (JS.ToUint32 1) 31) with 1.
  rewrite Z.shiftr_div_pow2 by lia. reflexivity.
Qed.

Lemma band_1_ToInt32 s : JS.band s 1 = JS.ToInt32 s mod 2.
Proof.
  unfold JS.band. change (JS.ToInt32 1) with (Z.ones 1).
  rewrite Z.land_ones by lia. reflexivity.
Qed.

(** X11. [indexSetToOutcomes] on any integer. An index set that is zero
    or negative has no outcomes. A positive one is read through its low
    32 bits taken as a signed number [t]: when [t] is not negative the
    outcomes are the set bits of [t]; when [t] is negative (bit 31 is
    set) the loop stops after one round and reports outcome 0 alone, or
    nothing, according to the lowest bit. *)
Theorem indexSetToOutcomes_any (indexSet : Z) :
  indexSetToOutcomes indexSet =
  if indexSet <=? 0 then []
  else
    let t := JS.ToInt32 indexSet in
    if t <? 0 then (if Z.odd t then [0] else [])
    else set_bits t.
Proof.
  unfold indexSetToOutcomes.
  destruct (indexSet <=? 0) eqn:Es.
  - apply indexSetToOutcomes_loop_nonpos. lia.
  - cbv zeta. rewrite indexSetToOutcomes_loop_pos by lia.
    rewrite sar_1_ToInt32, band_1_ToInt32.
    pose proof (ToInt32_int32 indexSet) as Ht. unfold int32 in Ht.
    generalize dependent (JS.ToInt32 indexSet). intros t Ht.
    rewrite Zmod_odd.
    destruct (t <? 0) eqn:En.
    + apply Z.ltb_lt in En. rewrite indexSetToOutcomes_loop_nonpos.
      * destruct (Z.odd t); reflexivity.
      * assert (t / 2 < 0) by (apply Z.div_lt_upper_bound; lia). lia.
    + apply Z.ltb_ge in En. destruct t as [|p|p]; [| |lia].
      * cbn. apply indexSetToOutcomes_loop_nonpos. rewrite Zdiv_0_l. lia.
      * destruct p as [q|q|].
        -- assert (Hd : Z.pos q~1 / 2 = Z.pos q).
           { rewrite Pos2Z.inj_xI. symmetry.
             apply (Z.div_unique _ 2 _ 1); lia. }
           rewrite Hd. cbn [Z.odd Z.eqb negb set_bits pos_bits app].
           rewrite indexSetToOutcomes_loop_bits by lia. reflexivity.
        -- assert (Hd : Z.pos q~0 / 2 = Z.pos q).
           { rewrite Pos2Z.inj_xO. symmetry.
             apply (Z.div_unique _ 2 _ 0); lia. }
           rewrite Hd. cbn [Z.odd Z.eqb negb set_bits pos_bits app].
           rewrite indexSetToOutcomes_loop_bits by lia. reflexivity.
        -- change (1 / 2) with 0. cbn [Z.odd Z.eqb negb set_bits pos_bits app].
           apply indexSetToOutcomes_loop_nonpos. lia.
Qed.

(** The index set of a list of outcomes is the bitwise or of the single
    shifts. *)
Lemma int32_big_lor (l : list Z) :
  Forall int32 l -> int32 (foldr Z.lor 0 l).
Proof.
  induction 1 as [|x l Hx Hl IH]; cbn [foldr]; [apply int32_0|].
  apply int32_lor; assumption.
Qed.

Lemma shl_int32 a b : int32 (JS.shl a b).
Proof. unfold JS.shl. apply ToInt32_int32. Qed.

Lemma outcomesToIndexSet_fold_lor (l : list Z) (a : Z) :
  int32 a ->
  fold_left (fun acc idx => JS.bor acc (JS.shl 1 idx)) l a
  = Z.lor a (foldr Z.lor 0 (map (JS.shl 1) l)).
Proof.
  revert a. induction l as [|i l IH]; intros a Ha; cbn [fold_left map foldr].
  - rewrite Z.lor_0_r. reflexivity.
  - assert (Hb : JS.bor a (JS.shl 1 i) = Z.lor a (JS.shl 1 i)).
    { unfold JS.bor. rewrite (ToInt32_id a Ha).
      rewrite (ToInt32_id _ (shl_int32 1 i)). reflexivity. }
    rewrite Hb, IH by (apply int32_lor; [assumption | apply shl_int32]).
    rewrite Z.lor_assoc. reflexivity.
Qed.

Lemma outcomesToIndexSet_big_lor (l : list Z) :
  outcomesToIndexSet l = foldr Z.lor 0 (map (JS.shl 1) l).
Proof.
  unfold outcomesToIndexSet.
  rewrite outcomesToIndexSet_fold_lor by apply int32_0. apply Z.lor_0_l.
Qed.

Lemma outcomesToIndexSet_int32 (l : list Z) : int32 (outcomesToIndexSet l).
Proof.
  rewrite outcomesToIndexSet_big_lor. apply int32_big_lor.
  apply List.Forall_forall. intros x Hx. apply in_map_iff in Hx as (i & <- & _).
  apply shl_int32.
Qed.

Lemma big_lor_testbit (l : list Z) (j : Z) :
  Z.testbit (foldr Z.lor 0 l) j = existsb (fun x => Z.testbit x j) l.
Proof.
  induction l as [|x l IH]; cbn [foldr existsb]; [apply Z.bits_0|].
  rewrite Z.lor_spec, IH. reflexivity.
Qed.

(** X12. [outcomesToIndexSet] depends only on which outcome indices
    occur in its argument: two lists with the same elements, in any order
    and with any repetitions, give the same index set. *)
Theorem outcomesToIndexSet_same_elements (l1 l2 : list Z) :
  (forall i, In i l1 <-> In i l2) ->
  outcomesToIndexSet l1 = outcomesToIndexSet l2.
Proof.
  intros H. rewrite !outcomesToIndexSet_big_lor.
  apply Z.bits_inj'. intros j _. rewrite !big_lor_testbit.
  apply eq_true_iff_eq. rewrite !existsb_exists.
  split; intros (x & Hx & Hb); apply in_map_iff in Hx as (i & <- & Hi);
    exists (JS.shl 1 i); (split; [apply in_map, H, Hi | exact Hb]).
Qed.

Lemma outcomesToIndexSet_same_elements_witness :
  outcomesToIndexSet [2; 0; 2] = outcomesToIndexSet [0; 2].
Proof.
  apply (outcomesToIndexSet_same_elements [2; 0; 2] [0; 2]).
  intros i. cbn. tauto.
Defined.

Lemma outcomesToIndexSet_set_bits s :
  0 <= s < 2 ^ 31 -> outcomesToIndexSet (set_bits s) = s.
Proof.
  intros Hs.
  destruct (outcomesToIndexSet_bits (set_bits s) (set_bits_range s Hs))
    as [_ Hb].
  apply Z.bits_inj'. intros j Hj.
  apply eq_true_iff_eq. rewrite Hb, set_bits_In by lia. intuition.
Qed.

(** X13. The index set of two lists of outcomes put together is the
    bitwise or of their index sets; so the outcomes of two index sets in
    [0, 2^31), put together, convert to the union of the two. *)
Theorem outcomesToIndexSet_app (l1 l2 : list Z) (a b : Z) :
  0 <= a < 2 ^ 31 ->
  0 <= b < 2 ^ 31 ->
  outcomesToIndexSet (l1 ++ l2)
  = JS.bor (outcomesToIndexSet l1) (outcomesToIndexSet l2)
  /\ outcomesToIndexSet (indexSetToOutcomes a ++ indexSetToOutcomes b)
     = Z.lor a b.
Proof.
  intros Ha Hb.
  assert (Happ : forall k1 k2,
             outcomesToIndexSet (k1 ++ k2)
             = JS.bor (outcomesToIndexSet k1) (outcomesToIndexSet k2)).
  { intros k1 k2. unfold JS.bor.
    rewrite !ToInt32_id by apply outcomesToIndexSet_int32.
    rewrite !outcomesToIndexSet_big_lor, map_app.
    induction (map (JS.shl 1) k1) as [|x l IH]; cbn [app foldr].
    - rewrite Z.lor_0_l. reflexivity.
    - rewrite IH, Z.lor_assoc. reflexivity. }
  split; [apply Happ|].
  rewrite Happ, !indexSetToOutcomes_set_bits by assumption.
  rewrite !outcomesToIndexSet_set_bits by assumption.
  unfold JS.bor. rewrite !ToInt32_id by (unfold int32; lia). reflexivity.
Qed.

Lemma outcomesToIndexSet_app_witness :
  outcomesToIndexSet ([0] ++ [2])
  = JS.bor (outcomesToIndexSet [0]) (outcomesToIndexSet [2])
  /\ outcomesToIndexSet (indexSetToOutcomes 5 ++ indexSetToOutcomes 6)
     = Z.lor 5 6.
Proof. apply (outcomesToIndexSet_app [0] [2] 5 6); lia. Defined.

(** ** [validate_partition] of the guide against the client's helper *)

(** X14. Up to 30 outcome slots and on non-negative index sets, the
    program's [validate_partition] returns without a panic and gives the
    verdict of the client's [validatePartition]. *)
Theorem validate_partition_agrees
    (partition : list Z) (outcome_slot_count : Z) :
  0 <= outcome_slot_count <= 30 ->
  Forall (fun s => 0 <= s) partition ->
  validate_partition partition outcome_slot_count
  = Ok (validatePartition partition outcome_slot_count).
Proof.
  intros Hn Hp. unfold validate_partition, validatePartition.
  destruct (_ || _); [reflexivity|].
  destruct (64 <=? outcome_slot_count) eqn:E; [apply Z.leb_le in E; lia|].
  rewrite Z.shiftl_1_l, fullIndexSet_small by lia.
  assert (0 < 2 ^ outcome_slot_count) by (apply Z.pow_pos_nonneg; lia).
  rewrite validatePartition_loop_pure by (assumption || lia). reflexivity.
Qed.

Lemma validate_partition_agrees_witness :
  validate_partition [5; 2] 3 = Ok (validatePartition [5; 2] 3).
Proof.
  apply (validate_partition_agrees [5; 2] 3).
  - lia.
  - repeat constructor; lia.
Defined.

(** X15. Below 64 outcome slots and on non-negative index sets,
    [validate_partition] accepts a partition exactly when it has at least
    two entries, no outcome slot is covered by two of them, and the
    covered slots are exactly the slots [0 .. outcome_slot_count - 1]. *)
Theorem validate_partition_accepts_iff
    (partition : list Z) (outcome_slot_count : Z) :
  0 <= outcome_slot_count < 64 ->
  Forall (fun s => 0 <= s) partition ->
  validate_partition partition outcome_slot_count = Ok true <->
  (2 <= length partition)%nat
  /\ NoDup (covered partition)
  /\ (forall i, i ∈ covered partition <-> 0 <= i < outcome_slot_count).
Proof.
  intros Hn Hp. unfold validate_partition.
  destruct (64 <=? outcome_slot_count) eqn:E; [apply Z.leb_le in E; lia|].
  rewrite Z.shiftl_1_l.
  pose proof (pure_loop_covers_iff partition outcome_slot_count
                ltac:(lia) Hp) as Hc.
  destruct partition as [|a [|b p']]; cbn [length Nat.eqb orb].
  - split; [discriminate | intros (Hl & _); cbn in Hl; lia].
  - split; [discriminate | intros (Hl & _); cbn in Hl; lia].
  - split.
    + intros H. injection H as H. apply Hc in H.
      split; [cbn; lia | exact H].
    + intros (_ & H). apply Hc in H. rewrite H. reflexivity.
Qed.

Lemma validate_partition_accepts_iff_witness :
  validate_partition [5; 2] 3 = Ok true <->
  (2 <= length [5; 2])%nat
  /\ NoDup (covered [5; 2])
  /\ (forall i, i ∈ covered [5; 2] <-> 0 <= i < 3).
Proof.
  apply (validate_partition_accepts_iff [5; 2] 3).
  - lia.
  - repeat constructor; lia.
Defined.

(** X16. The index sets of [validate_partition] are bytes, so from 9
    outcome slots on no partition is accepted: a partition of two or more
    bytes is rejected up to 63 slots, and from 64 slots on the shift that
    builds the mask overflows and the call panics. *)
Theorem validate_partition_outcome_limit
    (partition : list Z) (outcome_slot_count : Z) :
  Forall (fun s => 0 <= s < 2 ^ 8) partition ->
  (2 <= length partition)%nat ->
  9 <= outcome_slot_count ->
  validate_partition partition outcome_slot_count
  = if 64 <=? outcome_slot_count then Panicked else Ok false.
Proof.
  intros Hp Hl Hn. destruct (64 <=? outcome_slot_count) eqn:E.
  - apply validate_partition_shift_overflow; [assumption|].
    apply Z.leb_le in E. exact E.
  - destruct (validate_partition partition outcome_slot_count)
      as [b|e|] eqn:Hv.
    + destruct b; [|reflexivity].
      apply validate_partition_u8_limit in Hv; [lia | lia | assumption].
    + unfold validate_partition in Hv. rewrite E in Hv.
      destruct (_ || _) in Hv; discriminate.
    + unfold validate_partition in Hv. rewrite E in Hv.
      destruct (_ || _) in Hv; discriminate.
Qed.

Lemma validate_partition_outcome_limit_witness :
  validate_partition [1; 2] 9
  = if 64 <=? 9 then Panicked else Ok false.
Proof.
  apply (validate_partition_outcome_limit [1; 2] 9).
  - repeat constructor; lia.
  - cbn. lia.
  - lia.
Defined.

(** ** Sequences of [report_payout] calls *)

Lemma report_payout_step_cases c call :
  (fst call = oracle c /\
   report_payout_step c call =
   mkCondition (oracle c) (question_id c) (outcome_slot_count c) true
     (snd call) (condition_id c))
  \/ (fst call <> oracle c /\ report_payout_step c call = c).
Proof.
  unfold report_payout_step.
  destruct (report_payout_cases (fst call) c (snd call))
    as [[He Hr]|[Hne Hr]]; rewrite Hr; [left | right]; auto.
Qed.

Lemma report_payout_step_fields c call :
  oracle (report_payout_step c call) = oracle c
  /\ question_id (report_payout_step c call) = question_id c
  /\ outcome_slot_count (report_payout_step c call) = outcome_slot_count c
  /\ condition_id (report_payout_step c call) = condition_id c
  /\ is_resolved (report_payout_step c call)
     = is_resolved c || (fst call =? oracle c).
Proof.
  destruct (report_payout_step_cases c call) as [[He Hr]|[Hne Hr]];
    rewrite Hr; cbn [oracle question_id outcome_slot_count condition_id
                     is_resolved].
  - apply Z.eqb_eq in He. unfold Pubkey in *. rewrite He, orb_true_r. auto.
  - apply Z.eqb_neq in Hne. unfold Pubkey in *. rewrite Hne, orb_false_r. auto.
Qed.

(** X17. Whatever calls of [report_payout] reach a condition account,
    signed by whomever, its oracle, question, slot count and identifier
    stay as they were, and it is resolved afterwards exactly when it was
    resolved before or one of the calls was signed by its oracle. *)
Theorem report_payout_steps_invariants
    (calls : list (Pubkey * list Z)) (c : Condition) :
  oracle (report_payout_steps calls c) = oracle c
  /\ question_id (report_payout_steps calls c) = question_id c
  /\ outcome_slot_count (report_payout_steps calls c) = outcome_slot_count c
  /\ condition_id (report_payout_steps calls c) = condition_id c
  /\ is_resolved (report_payout_steps calls c)
     = is_resolved c || existsb (fun call => fst call =? oracle c) calls.
Proof.
  unfold report_payout_steps. revert c.
  induction calls as [|call calls IH]; intros c; cbn [fold_left existsb].
  - rewrite orb_false_r. auto.
  - destruct (IH (report_payout_step c call)) as (H1 & H2 & H3 & H4 & H5).
    destruct (report_payout_step_fields c call) as (S1 & S2 & S3 & S4 & S5).
    rewrite H1, H2, H3, H4, H5, S1, S2, S3, S4, S5, orb_assoc. auto.
Qed.

Lemma report_payout_steps_ignored calls c :
  Forall (fun call => fst call <> oracle c) calls ->
  report_payout_steps calls c = c.
Proof.
  unfold report_payout_steps.
  induction 1 as [|call calls Hc Hcs IH]; cbn [fold_left]; [reflexivity|].
  destruct (report_payout_step_cases c call) as [[He _]|[_ Hr]];
    [contradiction|].
  rewrite Hr. exact IH.
Qed.

(** X18. In a sequence of [report_payout] calls the last one signed by
    the oracle decides: the stored vector is the one of that call, whatever
    was reported before it and whatever other signers send after it; calls
    of other signers alone leave the account untouched. *)
Theorem report_payout_steps_last_call
    (pre post : list (Pubkey * list Z)) (c : Condition) (nums : list Z) :
  Forall (fun call => fst call <> oracle c) post ->
  report_payout_steps (pre ++ (oracle c, nums) :: post) c
  = mkCondition (oracle c) (question_id c) (outcome_slot_count c) true
      nums (condition_id c)
  /\ report_payout_steps post c = c.
Proof.
  intros Hpost. split; [|apply report_payout_steps_ignored; exact Hpost].
  revert c Hpost. induction pre as [|call pre IH]; intros c Hpost.
  - cbn [app]. unfold report_payout_steps. cbn [fold_left].
    destruct (report_payout_step_cases c (oracle c, nums))
      as [[_ Hr]|[Hne _]]; [|cbn [fst] in Hne; congruence].
    rewrite Hr. cbn [snd].
    apply (report_payout_steps_ignored post). exact Hpost.
  - destruct (report_payout_step_fields c call) as (S1 & S2 & S3 & S4 & _).
    change (report_payout_steps ((call :: pre) ++ (oracle c, nums) :: post) c)
      with (report_payout_steps (pre ++ (oracle c, nums) :: post)
              (report_payout_step c call)).
    rewrite <- S1, <- S2, <- S3, <- S4. apply IH. rewrite S1. exact Hpost.
Qed.

Lemma report_payout_steps_last_call_witness :
  let c := mkCondition 7 [] 2 false [] [] in
  report_payout_steps ([(7, [1; 0]); (8, [5; 5])] ++ (oracle c, [0; 1])
                         :: [(9, [1; 1])]) c
  = mkCondition (oracle c) (question_id c) (outcome_slot_count c) true
      [0; 1] (condition_id c)
  /\ report_payout_steps [(9, [1; 1])] c = c.
Proof.
  apply (report_payout_steps_last_call [(7, [1; 0]); (8, [5; 5])]
           [(9, [1; 1])] (mkCondition 7 [] 2 false [] []) [0; 1]).
  repeat constructor. cbn. lia.
Defined.

(** ** The payout quotient *)

Lemma checked_mul_u128_fits a b :
  u64 a -> u64 b -> checked_mul_u128 a b = Some (a * b).
Proof.
  intros [Ha1 Ha2] [Hb1 Hb2]. unfold checked_mul_u128.
  assert (Hm : a * b <= u64_MAX * u64_MAX)
    by (apply Z.mul_le_mono_nonneg; lia).
  assert (Hu : u64_MAX * u64_MAX <= u128_MAX) by (vm_compute; discriminate).
  destruct (a * b <=? u128_MAX) eqn:E; [reflexivity|].
  apply Z.leb_gt in E. lia.
Qed.

(** X19. On 64-bit amounts and numerators the product of [payout] always
    fits the 128-bit intermediate: the computation panics exactly when the
    denominator is zero, and otherwise returns the floor of the quotient
    cut to 64 bits. *)
Theorem payout_panics_iff_zero_denominator
    (amount payout_numerator payout_denominator : Z) :
  u64 amount -> u64 payout_numerator ->
  payout amount payout_numerator payout_denominator =
  if payout_denominator =? 0 then Panicked
  else Ok ((amount * payout_numerator / payout_denominator) mod 2 ^ 64).
Proof.
  intros Ha Hn. unfold payout.
  rewrite (checked_mul_u128_fits _ _ Ha Hn). cbn [unwrap].
  unfold checked_div_u128.
  destruct (payout_denominator =? 0); reflexivity.
Qed.

Lemma payout_panics_iff_zero_denominator_witness :
  payout 100 1 0 = (if 0 =? 0 then Panicked else Ok ((100 * 1 / 0) mod 2 ^ 64))
  /\ payout 100 1 2 =
     (if 2 =? 0 then Panicked else Ok ((100 * 1 / 2) mod 2 ^ 64)).
Proof.
  split.
  - apply (payout_panics_iff_zero_denominator 100 1 0);
      unfold u64, u64_MAX; lia.
  - apply (payout_panics_iff_zero_denominator 100 1 2);
      unfold u64, u64_MAX; lia.
Defined.

Lemma quotient_bounds amount num den :
  0 <= amount -> 0 <= num <= den -> 0 < den ->
  0 <= amount * num / den <= amount.
Proof.
  intros Ha Hn Hd. split.
  - apply Z.div_pos; [apply Z.mul_nonneg_nonneg; lia | lia].
  - rewrite <- (Z.div_mul amount den) at 2 by lia.
    apply Z.div_le_mono; [lia|]. apply Z.mul_le_mono_nonneg_l; lia.
Qed.

(** X20. With a numerator that does not exceed a non-zero 64-bit
    denominator, [payout] returns the floor of
    [amount * numerator / denominator] with nothing cut off, and never
    more than the amount redeemed. *)
Theorem payout_at_most_amount
    (amount payout_numerator payout_denominator : Z) :
  u64 amount ->
  0 <= payout_numerator <= payout_denominator ->
  0 < payout_denominator <= u64_MAX ->
  payout amount payout_numerator payout_denominator
  = Ok (amount * payout_numerator / payout_denominator)
  /\ 0 <= amount * payout_numerator / payout_denominator <= amount.
Proof.
  intros Ha Hn Hd.
  pose proof (quotient_bounds amount payout_numerator payout_denominator
                (proj1 Ha) Hn (proj1 Hd)) as Hq.
  split; [|exact Hq].
  unfold payout. rewrite checked_mul_u128_fits
    by (assumption || (unfold u64; lia)).
  cbn [unwrap]. unfold checked_div_u128.
  destruct (payout_denominator =? 0) eqn:E; [apply Z.eqb_eq in E; lia|].
  cbn. unfold as_u64. rewrite Z.mod_small; [reflexivity|].
  unfold u64, u64_MAX in Ha. lia.
Qed.

Lemma payout_at_most_amount_witness :
  payout 7 1 3 = Ok (7 * 1 / 3) /\ 0 <= 7 * 1 / 3 <= 7.
Proof.
  apply (payout_at_most_amount 7 1 3); unfold u64, u64_MAX; lia.
Defined.

Lemma elements_le_sum nums :
  Forall (fun n => 0 <= n) nums ->
  Forall (fun n => 0 <= n <= list_sum_Z nums) nums.
Proof.
  induction 1 as [|x l Hx Hl IH]; constructor.
  - pose proof (list_sum_Z_nonneg l Hl).
    change (list_sum_Z (x :: l)) with (x + list_sum_Z l). lia.
  - eapply List.Forall_impl; [|exact IH]. cbv beta. intros n Hn.
    change (list_sum_Z (x :: l)) with (x + list_sum_Z l). lia.
Qed.

Lemma floors_sum amount den nums ps :
  0 <= amount -> 0 < den ->
  Forall2 (fun n p => 0 <= n /\ p = amount * n / den) nums ps ->
  den * list_sum_Z ps <= amount * list_sum_Z nums
  /\ amount * list_sum_Z nums
     <= den * list_sum_Z ps + (den - 1) * Z.of_nat (length nums).
Proof.
  intros Ha Hd. induction 1 as [|n p nums ps [Hn Hp] Hrest IH].
  - cbn. lia.
  - change (list_sum_Z (n :: nums)) with (n + list_sum_Z nums).
    change (list_sum_Z (p :: ps)) with (p + list_sum_Z ps).
    cbn [length]. rewrite Nat2Z.inj_succ.
    pose proof (Z.div_mod (amount * n) den ltac:(lia)) as Hdm.
    pose proof (Z.mod_pos_bound (amount * n) den Hd) as Hm.
    rewrite <- Hp in Hdm. nia.
Qed.

(** X21. When the numerators add up to the denominator, the payouts of
    one amount against each numerator add up to at most that amount, and
    fall short of it by less than one unit per numerator: rounding never
    pays out more than was put in. *)
Theorem payout_rounding_dust
    (amount payout_denominator : Z) (payout_numerators payouts : list Z) :
  u64 amount ->
  Forall (fun n => 0 <= n) payout_numerators ->
  list_sum_Z payout_numerators = payout_denominator ->
  0 < payout_denominator <= u64_MAX ->
  Forall2 (fun n p => payout amount n payout_denominator = Ok p)
    payout_numerators payouts ->
  amount - Z.of_nat (length payout_numerators) < list_sum_Z payouts <= amount.
Proof.
  intros Ha Hn Hs Hd Hp.
  assert (Hf : Forall2 (fun n p => 0 <= n /\ p = amount * n / payout_denominator)
                 payout_numerators payouts).
  { apply elements_le_sum in Hn. rewrite Hs in Hn.
    clear Hs. induction Hp as [|n p nums ps Hnp Hrest IH]; constructor.
    - inversion Hn as [|? ? Hn1 Hn2]; subst.
      pose proof (quotient_bounds amount n payout_denominator
                    (proj1 Ha) Hn1 (proj1 Hd)) as Hq.
      unfold payout in Hnp. rewrite checked_mul_u128_fits in Hnp
        by (assumption || (unfold u64; lia)).
      cbn [unwrap] in Hnp. unfold checked_div_u128 in Hnp.
      destruct (payout_denominator =? 0) eqn:E; [apply Z.eqb_eq in E; lia|].
      cbn in Hnp. unfold as_u64 in Hnp.
      rewrite Z.mod_small in Hnp by (unfold u64, u64_MAX in Ha; lia).
      inversion Hnp. split; [lia | reflexivity].
    - apply IH. inversion Hn; assumption. }
  destruct Ha as [Ha1 Ha2].
  destruct (floors_sum _ _ _ _ Ha1 (proj1 Hd) Hf) as [Hlo Hhi].
  rewrite Hs in Hlo, Hhi.
  assert (Hk : 1 <= Z.of_nat (length payout_numerators)).
  { destruct payout_numerators; [cbn in Hs; lia | cbn [length]; lia]. }
  split; nia.
Qed.

Lemma payout_rounding_dust_witness :
  10 - Z.of_nat (length [1; 1; 1]) < list_sum_Z [3; 3; 3] <= 10.
Proof.
  apply (payout_rounding_dust 10 3 [1; 1; 1] [3; 3; 3]).
  - unfold u64, u64_MAX. lia.
  - repeat constructor; lia.
  - reflexivity.
  - unfold u64_MAX. lia.
  - repeat constructor.
Defined.

(** ** Redemption after a vector that cannot be paid *)

Lemma payout_numerator_from_zeros nums index_set i :
  Forall (fun x => x = 0) nums -> payout_numerator_from nums index_set i = 0.
Proof.
  intros H. revert i.
  induction H as [|x l Hx Hl IH]; intros i; cbn [payout_numerator_from];
    [reflexivity|].
  rewrite IH, Hx. destruct (Z.testbit index_set i); reflexivity.
Qed.

Lemma list_sum_Z_zeros nums :
  Forall (fun x => x = 0) nums -> list_sum_Z nums = 0.
Proof.
  induction 1 as [|x l Hx Hl IH]; [reflexivity|].
  change (list_sum_Z (x :: l)) with (x + list_sum_Z l). lia.
Qed.

(** X22. [report_payout] stores any vector its oracle signs. Once it has
    stored an all-zero vector, every redemption of at least one index set
    panics on the division; once it has stored 64-bit numerators whose sum
    leaves 64 bits, every redemption panics on the sum. Either way the
    call ends before any token is burnt or moved. *)
Theorem redeem_locked_by_report
    (c : Condition) (nums : list Z) (user collateral_mint : Pubkey)
    (index_sets : list Z) (amount : Z) (L : Ledger) :
  (Forall (fun x => x = 0) nums /\ index_sets <> [])
  \/ (Forall u64 nums /\ u64_MAX < list_sum_Z nums) ->
  redeem_positions (report_payout_step c (oracle c, nums))
    user collateral_mint index_sets amount L
  = mkRun L [] Panicked.
Proof.
  intros H. unfold report_payout_step. cbn [fst snd].
  rewrite report_payout_by_oracle. unfold redeem_positions.
  cbn [is_resolved payout_numerators negb]. unfold sum_u64.
  destruct H as [[Hz Hne]|[Hu Hs]].
  - rewrite sum_u64_from_ok.
    + rewrite (list_sum_Z_zeros nums Hz).
      destruct index_sets as [|s rest]; [congruence|].
      cbn [redeem_loop payout_numerators]. unfold calculate_payout_numerator.
      rewrite (payout_numerator_from_zeros nums s 0 Hz).
      unfold payout, checked_mul_u128. rewrite Z.mul_0_r. reflexivity.
    + eapply List.Forall_impl; [|exact Hz]. cbv beta. intros x ->. lia.
    + lia.
    + rewrite (list_sum_Z_zeros nums Hz). unfold u64_MAX. lia.
  - rewrite sum_u64_from_overflow; [reflexivity| | |].
    + eapply List.Forall_impl; [|exact Hu]. intros x [Hx _]. exact Hx.
    + unfold u64_MAX. lia.
    + lia.
Qed.

Lemma redeem_locked_by_report_witness :
  redeem_positions
    (report_payout_step (mkCondition 7 [] 2 false [] [])
       (oracle (mkCondition 7 [] 2 false [] []), [0; 0]))
    1 9 [2] 100 (mkLedger ∅ ∅ ∅ ∅)
  = mkRun (mkLedger ∅ ∅ ∅ ∅) [] Panicked.
Proof.
  apply (redeem_locked_by_report (mkCondition 7 [] 2 false [] []) [0; 0]
           1 9 [2] 100 (mkLedger ∅ ∅ ∅ ∅)).
  left. split; [repeat constructor | discriminate].
Defined.

(** ** The account lists of the client *)

Lemma remainingAccounts_from
    (getAssociatedTokenAddressSync : Pubkey -> Pubkey -> Pubkey)
    (user : Pubkey) (pre l : list Pubkey) :
  flat_map
    (fun i : nat =>
       [mkAccountMeta (nth i (pre ++ l) 0) false true;
        mkAccountMeta
          (nth i (map (fun mint => getAssociatedTokenAddressSync mint user)
                    (pre ++ l)) 0) false true])
    (seq (length pre) (length l))
  = flat_map
      (fun mint =>
         [mkAccountMeta mint false true;
          mkAccountMeta (getAssociatedTokenAddressSync mint user) false true])
      l.
Proof.
  revert pre. induction l as [|x l IH]; intros pre; [reflexivity|].
  cbn [length seq flat_map app]. f_equal; [|f_equal].
  - rewrite nth_middle. reflexivity.
  - rewrite map_app. cbn [map].
    rewrite <- (length_map (fun mint => getAssociatedTokenAddressSync mint user) pre)
      at 1.
    rewrite nth_middle. reflexivity.
  - specialize (IH (pre ++ [x])).
    rewrite <- app_assoc, length_app in IH. cbn [app length] in IH.
    rewrite Nat.add_1_r in IH. exact IH.
Qed.

Lemma remainingAccounts_pairs
    (getAssociatedTokenAddressSync : Pubkey -> Pubkey -> Pubkey)
    (outcomeMints : list Pubkey) (user : Pubkey) :
  remainingAccounts getAssociatedTokenAddressSync outcomeMints user
  = flat_map
      (fun mint =>
         [mkAccountMeta mint false true;
          mkAccountMeta (getAssociatedTokenAddressSync mint user) false true])
      outcomeMints.
Proof.
  unfold remainingAccounts, userOutcomeAccounts. cbv zeta.
  apply (remainingAccounts_from getAssociatedTokenAddressSync user []).
Qed.

(** X23. The account list that [splitPosition], [mergePositions] and
    [redeemPositions] send has two entries per outcome mint: entry [2i] is
    mint [i] and entry [2i+1] is the user's associated token account of
    that same mint, each writable and not a signer. *)
Theorem remainingAccounts_layout
    (getAssociatedTokenAddressSync : Pubkey -> Pubkey -> Pubkey)
    (outcomeMints : list Pubkey) (user : Pubkey) :
  length (remainingAccounts getAssociatedTokenAddressSync outcomeMints user)
  = (2 * length outcomeMints)%nat
  /\ forall (i : nat) (mint : Pubkey),
       outcomeMints !! i = Some mint ->
       remainingAccounts getAssociatedTokenAddressSync outcomeMints user
         !! (2 * i)%nat
       = Some (mkAccountMeta mint false true)
       /\ remainingAccounts getAssociatedTokenAddressSync outcomeMints user
            !! (2 * i + 1)%nat
          = Some (mkAccountMeta (getAssociatedTokenAddressSync mint user)
                    false true).
Proof.
  rewrite remainingAccounts_pairs.
  induction outcomeMints as [|m l [IHl IHi]]; cbn [flat_map app length].
  - split; [reflexivity|]. intros i mint H. discriminate.
  - split; [rewrite IHl; lia|].
    intros [|i] mint H.
    + cbn in H. inversion H; subst. split; reflexivity.
    + replace (2 * S i)%nat with (S (S (2 * i))) by lia.
      replace (S (S (2 * i)) + 1)%nat with (S (S (2 * i + 1))) by lia.
      apply (IHi i mint H).
Qed.

Lemma remainingAccounts_layout_witness :
  length (remainingAccounts (fun mint user => mint + user) [10; 20] 1)
  = (2 * length [10; 20])%nat
  /\ remainingAccounts (fun mint user => mint + user) [10; 20] 1
       !! (2 * 1)%nat
     = Some (mkAccountMeta 20 false true)
  /\ remainingAccounts (fun mint user => mint + user) [10; 20] 1
       !! (2 * 1 + 1)%nat
     = Some (mkAccountMeta ((fun mint user => mint + user) 20 1) false true).
Proof.
  destruct (remainingAccounts_layout (fun mint user => mint + user)
              [10; 20] 1) as [Hl Hi].
  split; [exact Hl|]. apply (Hi 1%nat 20). reflexivity.
Defined.

(** X24. For a two-outcome condition the list the client sends is the
    list the integration tests send only if the second mint is itself the
    user's token account of the first: otherwise the client interleaves
    mints and accounts where the tests group them. *)
Theorem remainingAccounts_against_tests
    (getAssociatedTokenAddressSync : Pubkey -> Pubkey -> Pubkey)
    (yesMint noMint user : Pubkey) :
  remainingAccounts getAssociatedTokenAddressSync [yesMint; noMint] user
  = testRemainingAccounts yesMint noMint
      (getAssociatedTokenAddressSync yesMint user)
      (getAssociatedTokenAddressSync noMint user)
  <-> noMint = getAssociatedTokenAddressSync yesMint user.
Proof.
  unfold remainingAccounts, userOutcomeAccounts, testRemainingAccounts.
  cbn. split.
  - intros H. inversion H. reflexivity.
  - intros ->. reflexivity.
Qed.

Lemma ensureOutcomeAccounts_fold
    (getAssociatedTokenAddressSync : Pubkey -> Pubkey -> Pubkey)
    (existing : gset Pubkey) (payerKey user : Pubkey)
    (outcomeMints : list Pubkey) (acc : list CreateAccount) :
  fold_left
    (fun instructions mint =>
       let ata := getAssociatedTokenAddressSync mint user in
       if bool_decide (ata ∈ existing) then instructions
       else instructions ++ [mkCreateAccount payerKey ata user mint])
    outcomeMints acc
  = acc ++
    map (fun mint =>
           mkCreateAccount payerKey (getAssociatedTokenAddressSync mint user)
             user mint)
      (List.filter
         (fun mint =>
            negb (bool_decide
                    (getAssociatedTokenAddressSync mint user ∈ existing)))
         outcomeMints).
Proof.
  revert acc. induction outcomeMints as [|m l IH]; intros acc;
    cbn [fold_left List.filter].
  - cbn. rewrite app_nil_r. reflexivity.
  - cbv zeta. rewrite IH.
    destruct (bool_decide (getAssociatedTokenAddressSync m user ∈ existing));
      cbn [negb map]; [reflexivity|].
    rewrite <- app_assoc. reflexivity.
Qed.

(** X25. [ensureOutcomeAccounts] returns one creation instruction for
    each listed mint whose associated token account does not exist, in the
    order of the list and once per occurrence of the mint; the payer is the
    one given, or the wallet of the provider when none is given, and the
    owner is the user. *)
Theorem ensureOutcomeAccounts_missing_only
    (getAssociatedTokenAddressSync : Pubkey -> Pubkey -> Pubkey)
    (existing : gset Pubkey) (wallet user : Pubkey)
    (outcomeMints : list Pubkey) (payer : option Pubkey) :
  ensureOutcomeAccounts getAssociatedTokenAddressSync existing wallet user
    outcomeMints payer
  = map (fun mint =>
           mkCreateAccount (default wallet payer)
             (getAssociatedTokenAddressSync mint user) user mint)
      (List.filter
         (fun mint =>
            negb (bool_decide
                    (getAssociatedTokenAddressSync mint user ∈ existing)))
         outcomeMints).
Proof.
  unfold ensureOutcomeAccounts. cbv zeta.
  rewrite ensureOutcomeAccounts_fold. reflexivity.
Qed.

Lemma filter_none {A} (f : A -> bool) (l : list A) :
  (forall x, In x l -> f x = false) -> List.filter f l = [].
Proof.
  induction l as [|x l IH]; intros H; cbn [List.filter]; [reflexivity|].
  rewrite (H x (or_introl eq_refl)). apply IH.
  intros y Hy. apply H. right. exact Hy.
Qed.

(** X26. Once the accounts of the returned instructions exist, a second
    call of [ensureOutcomeAccounts] for the same user and mints returns no
    instruction. *)
Theorem ensureOutcomeAccounts_idempotent
    (getAssociatedTokenAddressSync : Pubkey -> Pubkey -> Pubkey)
    (existing : gset Pubkey) (wallet user : Pubkey)
    (outcomeMints : list Pubkey) (payer payer' : option Pubkey) :
  ensureOutcomeAccounts getAssociatedTokenAddressSync
    (existing ∪
     list_to_set
       (map create_associatedToken
          (ensureOutcomeAccounts getAssociatedTokenAddressSync existing
             wallet user outcomeMints payer)))
    wallet user outcomeMints payer'
  = [].
Proof.
  unfold ensureOutcomeAccounts. cbv zeta.
  rewrite !ensureOutcomeAccounts_fold. cbn [app].
  rewrite filter_none; [reflexivity|].
  intros mint Hin. apply negb_false_iff, bool_decide_eq_true_2.
  destruct (decide (getAssociatedTokenAddressSync mint user ∈ existing))
    as [He|Hne]; [apply elem_of_union_l; exact He|].
  apply elem_of_union_r, elem_of_list_to_set, list_elem_of_In.
  rewrite map_map. cbn [create_associatedToken].
  apply in_map_iff. exists mint. split; [reflexivity|].
  apply filter_In. split; [exact Hin|].
  apply negb_true_iff, bool_decide_eq_false_2. exact Hne.
Qed.

(** ** [verifyCTFInvariant] *)

(** X27. On a vault that exists and is not empty, [verifyCTFInvariant]
    returns a report, and reports a condition as valid exactly when the
    supplies of the listed outcome mints add up to the vault balance
    times the number of mints. With two or more mints a condition
    reported valid therefore never has a total outcome supply equal to
    its vault balance. *)
Theorem verifyCTFInvariant_checks_product
    (L : Ledger) (collateralMint : Pubkey) (outcomeMints : list Z) :
  (2 <= length outcomeMints)%nat ->
  vault_balance L collateralMint <> 0 ->
  exists report,
    verifyCTFInvariant L collateralMint outcomeMints = Some report
    /\ (isValid report = true <->
        list_sum_Z (map (supply L) outcomeMints)
        = vault_balance L collateralMint * Z.of_nat (length outcomeMints))
    /\ (isValid report = true ->
        totalOutcomeSupply report <> vaultBalance report).
Proof.
  intros Hl Hv. unfold verifyCTFInvariant.
  destruct (getVaultBalance L collateralMint) as [v|] eqn:Eg.
  - rewrite (getVaultBalance_Some _ _ _ Eg) in *.
    eexists. split; [reflexivity|].
    cbn [isValid totalOutcomeSupply vaultBalance].
    rewrite fold_left_supply_sum, Z.add_0_l, Z.eqb_eq.
    split; [reflexivity|].
    intros ->. nia.
  - exfalso. apply Hv. unfold vault_balance.
    unfold getVaultBalance in Eg. rewrite Eg. reflexivity.
Qed.

Lemma verifyCTFInvariant_checks_product_witness :
  let L := mkLedger {[ 9 := 100 ]} {[ 0 := 100; 1 := 100 ]} ∅ ∅ in
  exists report,
    verifyCTFInvariant L 9 [0; 1] = Some report
    /\ (isValid report = true <->
        list_sum_Z (map (supply L) [0; 1])
        = vault_balance L 9 * Z.of_nat (length [0; 1]))
    /\ (isValid report = true ->
        totalOutcomeSupply report <> vaultBalance report).
Proof.
  apply (verifyCTFInvariant_checks_product
           (mkLedger {[ 9 := 100 ]} {[ 0 := 100; 1 := 100 ]} ∅ ∅) 9 [0; 1]).
  - cbn. lia.
  - vm_compute. discriminate.
Defined.
